(** * Spike simulator: synapses, membrane integration, reversal potentials

    A shallow embedding of the two notebooks of the repository:
    - the synapse notebook: [heaviside], [e], [g_syn], [I_AMPA], [I_GABA],
      the membrane simulation loop, the constants [R], [F], [T], [RTF],
      [nernst_ind] and [ghk];
    - [neuron.ipynb]: the leak-only integration loop.

    Numbers.  Python's floats are embedded as real numbers: [+ - * /] and
    [**] are the exact operations on [R], so the rounding of a result and
    its underflow to zero are outside the model, and the properties below
    are stated where rounding does not decide them.  What Python and NumPy
    do at the edge of the arithmetic is kept: [/] raises
    [ZeroDivisionError] on a zero divisor, [**] raises [OverflowError]
    when the power is larger than every double, [assert] raises
    [AssertionError], and [np.log] returns [-inf] at zero and [nan] below
    zero instead of raising.  Operands are Python numbers.  Where the
    notebook passes a NumPy array for a list of spike times, a zero
    divisor and an overflow give [inf] or [nan] with a warning instead of
    the exception: what is proved below of a raised exception holds for
    Python numbers, and the properties of the simulation loop carry
    hypotheses that exclude both events, so that they hold for lists and
    arrays alike.  The leak-only loop of [neuron.ipynb] uses only
    [+ - * /]; it is embedded a second time on IEEE binary64 numbers,
    where it runs bit for bit. *)

From Stdlib Require Import Reals Lra Lia List ZArith String Bool.
From Stdlib Require Import Floats.
Import ListNotations.
Open Scope R_scope.

(** ** The fragment of Python and NumPy the notebooks rely on *)

Module Py.

(** The exceptions the embedded code can raise. *)
Inductive exn : Type :=
| ZeroDivisionError
| AssertionError (msg : string)
| OverflowError.

Inductive result (A : Type) : Type :=
| Ok (a : A)
| Raise (err : exn).

Arguments Ok {A} a.
Arguments Raise {A} err.

Definition bind {A B : Type} (m : result A) (k : A -> result B) : result B :=
  match m with
  | Ok a => k a
  | Raise err => Raise err
  end.

Notation "x <- m ;; k" := (bind m (fun x => k))
  (at level 61, m at next level, right associativity).

Definition raises {A : Type} (m : result A) : Prop :=
  exists err, m = Raise err.

(** [x / y] on Python numbers: [ZeroDivisionError] on a zero divisor. *)
Definition truediv (x y : R) : result R :=
  if Req_dec_T y 0 then Raise ZeroDivisionError else Ok (x / y).

(** [sys.float_info.max], the largest double: [2^1024 - 2^971]. *)
Definition float_max : R := IZR (2 ^ 1024 - 2 ^ 971).

(** [b ** x] on Python floats, for a positive base [b]: [OverflowError]
    when the power is larger than every double. *)
Definition float_pow (b x : R) : result R :=
  if Rlt_dec float_max (Rpower b x) then Raise OverflowError
  else Ok (Rpower b x).

(** [for x in xs: s = body(x, s)], stopping at the first exception. *)
Fixpoint for_in {A S : Type} (xs : list A) (body : A -> S -> result S) (s : S)
  : result S :=
  match xs with
  | [] => Ok s
  | x :: xs' => s' <- body x s ;; for_in xs' body s'
  end.

Definition range (n : nat) : list nat := seq 0 n.

(** [zip] of four sequences stops with the shortest one. *)
Fixpoint zip4 {A B C D : Type}
  (a : list A) (b : list B) (c : list C) (d : list D) : list (A * B * C * D) :=
  match a, b, c, d with
  | x :: a', y :: b', z :: c', w :: d' => (x, y, z, w) :: zip4 a' b' c' d'
  | _, _, _, _ => []
  end.

(** [float(b)] for a bool. *)
Definition float_of_bool (b : bool) : R := if b then 1 else 0.

(** A NumPy float: a real number, an infinity or [nan]. *)
Inductive npfloat : Type :=
| Fin (r : R)
| PInf
| NInf
| NaN.

(** [np.log]: no exception, [-inf] at zero and [nan] on negative numbers. *)
Definition np_log (x : R) : npfloat :=
  if Rlt_dec 0 x then Fin (ln x)
  else if Req_dec_T x 0 then NInf
  else NaN.

(** An infinity of sign [pos] times the finite number [x]. *)
Definition inf_times (pos : bool) (x : R) : npfloat :=
  if Rlt_dec 0 x then (if pos then PInf else NInf)
  else if Rlt_dec x 0 then (if pos then NInf else PInf)
  else NaN.

Definition is_infinite (v : npfloat) : Prop := v = PInf \/ v = NInf.

Definition fmul (a b : npfloat) : npfloat :=
  match a, b with
  | NaN, _ | _, NaN => NaN
  | Fin x, Fin y => Fin (x * y)
  | Fin x, PInf | PInf, Fin x => inf_times true x
  | Fin x, NInf | NInf, Fin x => inf_times false x
  | PInf, PInf | NInf, NInf => PInf
  | PInf, NInf | NInf, PInf => NInf
  end.

End Py.

Import Py.

(** ** The synapse notebook: conductance, synaptic currents, integration *)

Module Synapse.

(** [def heaviside(x): return x >= 0] *)
Definition heaviside (x : R) : bool :=
  if Rle_dec 0 x then true else false.

(** [e = 2.71828] *)
Definition e : R := 2.71828.

(** [g_syn(t, spks, g_max, tau)]: the loop runs over the indices of [spks]
    and adds [g_max * e**(-(t-spks[i])/tau) * float(heaviside(t-spks[i]))]
    to [total], which starts at [0.0].  The power is taken before the
    gate is looked at, so it can overflow for a spike that the gate would
    drop.  The two products and the sum are the exact ones. *)
Definition g_syn_body (t : R) (spks : list R) (g_max tau : R)
  (i : nat) (total : R) : result R :=
  x <- truediv (- (t - nth i spks 0)) tau ;;
  p <- float_pow e x ;;
  Ok (total + g_max * p * float_of_bool (heaviside (t - nth i spks 0))).

Definition g_syn (t : R) (spks : list R) (g_max tau : R) : result R :=
  for_in (range (List.length spks)) (g_syn_body t spks g_max tau) 0.

(** What the spike at [t_s] adds to [total] when the division by [tau]
    succeeds, with [pw x] standing for [e**x]. *)
Definition term (pw : R -> R) (t g_max tau t_s : R) : R :=
  g_max * pw (- (t - t_s) / tau) * float_of_bool (heaviside (t - t_s)).

(** The range in which the doubles carry the terms of [g_syn]: up to the
    exponent [safe_exponent] the power [e**x] is a double, about [1e304]
    at most, and so is its product with a [g_max] of magnitude up to
    [max_gain].  Beyond it the power raises [OverflowError] from about
    [x = 709.8] on, and before that the product can turn into [inf],
    which the closed gate turns into [nan]. *)
Definition safe_exponent : R := 700.
Definition max_gain : R := 1000.

(** "No spike is so far ahead of [t] that its term leaves the doubles":
    the exponent of every spike is at most [safe_exponent].  For a
    positive [tau] these are the spikes up to [700 * tau] ms after [t]. *)
Definition in_range (t tau : R) (spks : list R) : Prop :=
  Forall (fun t_s => - (t - t_s) / tau <= safe_exponent) spks.

(** [I_AMPA] and [I_GABA]: [1e-3 * g_syn(t, spks, g_max, tau) * (V_t - E)]. *)
Definition I_AMPA (t V_t : R) (spks : list R) (g_max tau E : R) : result R :=
  g <- g_syn t spks g_max tau ;;
  Ok (0.001 * g * (V_t - E)).

Definition I_GABA (t V_t : R) (spks : list R) (g_max tau E : R) : result R :=
  g <- g_syn t spks g_max tau ;;
  Ok (0.001 * g * (V_t - E)).

(** The keyword defaults of the two synapses, which the loop relies on. *)
Definition AMPA_g_max : R := 50.
Definition AMPA_tau : R := 4.
Definition AMPA_E : R := 0.
Definition GABA_g_max : R := 50.
Definition GABA_tau : R := 8.
Definition GABA_E : R := -70.

(** The neuronal parameters the loop reads. *)
Record membrane : Type := Membrane {
  V_rest : R;
  C_m : R;
  R_m : R;
  I_e : R;
  A : R
}.

(** The parameters as the notebook sets them. *)
Definition notebook_membrane : membrane :=
  {| V_rest := -65; C_m := 1; R_m := 100; I_e := 0; A := 10 |}.

Definition exc_spks : list R := [1.9; 22; 40].

(** One pass through the body of the simulation loop, at index [i] and
    with [V_t] the voltage on entry. *)
Definition step (p : membrane) (dt : R) (inh_spks exc_spks : list R)
  (i : nat) (V_t : R) : result R :=
  let t := INR i * dt in
  I_leak <- truediv (V_t - V_rest p) (R_m p) ;;
  gaba <- I_GABA t V_t inh_spks GABA_g_max GABA_tau GABA_E ;;
  ampa <- I_AMPA t V_t exc_spks AMPA_g_max AMPA_tau AMPA_E ;;
  let I_syn := gaba + ampa in
  ext <- truediv (I_e p) (A p) ;;
  dV <- truediv ((- I_leak - I_syn + ext) * dt) (C_m p) ;;
  Ok (V_t + dV).

(** [for i in range(num_iter): ...] from the initial voltage [V0]. *)
Definition simulate (p : membrane) (dt : R) (inh_spks exc_spks : list R)
  (num_iter : nat) (V0 : R) : result R :=
  for_in (range num_iter) (step p dt inh_spks exc_spks) V0.

End Synapse.

(** ** [neuron.ipynb]: the leak-only integration loop *)

Module Neuron.

(** The body of the loop of the cell "I_leak is time-dependent":
    [I_leak = (V_t - V_rest)/R_m], [dV = (-I_leak + I_e) * dt/C_m],
    [V_t = V_t + dV].  The external current is not divided by the
    electrode area here. *)
Definition leak_step (V_rest R_m I_e dt C_m : R) (V_t : R) : result R :=
  I_leak <- truediv (V_t - V_rest) R_m ;;
  dV <- truediv ((- I_leak + I_e) * dt) C_m ;;
  Ok (V_t + dV).

Definition leak_loop (V_rest R_m I_e dt C_m : R) (num_iter : nat) (V0 : R)
  : result R :=
  for_in (range num_iter) (fun _ => leak_step V_rest R_m I_e dt C_m) V0.

(** The globals of the notebook and the two sliders of the cell. *)
Definition V_rest : R := -65.
Definition C_m : R := 1.
Definition R_m : R := 100.
Definition I_e : R := 0.
Definition num_iter : nat := 4060.
Definition dt : R := 0.5.

(** The same body and loop on binary64 numbers.  The divisors of the cell
    are the non-zero constants [R_m = 100] and [C_m = 1], so no division
    raises. *)
Definition leak_step_b64 (V_rest R_m I_e dt C_m : float) (V_t : float) : float :=
  let I_leak := ((V_t - V_rest) / R_m)%float in
  let dV := ((- I_leak + I_e) * dt / C_m)%float in
  (V_t + dV)%float.

Definition leak_loop_b64 (V_rest R_m I_e dt C_m : float) (num_iter : nat)
  (V0 : float) : float :=
  fold_left (fun V _ => leak_step_b64 V_rest R_m I_e dt C_m V) (range num_iter) V0.

Definition notebook_run_b64 : float :=
  leak_loop_b64 (-65)%float 100%float 0%float 0.5%float 1%float num_iter
    (-65 + 2)%float.

End Neuron.

(** ** The synapse notebook, continued: reversal potentials *)

Module Ions.

(** [R = 8.314], [F = 96485], [T = 310.25], [RTF = R*T/F]; the gas
    constant is called [R_gas] here, [R] being the type of real numbers. *)
Definition R_gas : R := 8.314.
Definition F : R := 96485.
Definition T : R := 310.25.
Definition RTF : R := R_gas * T / F.

(** [nernst_ind(C_out, C_in, sign)]:
    [return RTF/sign * np.log(C_out/C_in)*1000]. *)
Definition nernst_ind (C_out C_in : R) (sign : Z) : result npfloat :=
  a <- truediv RTF (IZR sign) ;;
  q <- truediv C_out C_in ;;
  Ok (fmul (fmul (Fin a) (np_log q)) (Fin 1000)).

(** The message of the assertion in [ghk]. *)
Definition monovalent_msg : string := "only monovalent ions supported".

(** The body of the loop of [ghk] on one tuple of
    [zip(C_ins, C_outs, ps, zs)]:
    [assert abs(z) == 1, "only monovalent ions supported"], then the two
    branches of [if z>0]. *)
Definition ghk_body (ion : R * R * R * Z) (acc : R * R) : result (R * R) :=
  let '(cin, cout, p, z) := ion in
  let '(dividend, divisor) := acc in
  if (Z.abs z =? 1)%Z then
    if (z >? 0)%Z then Ok (dividend + p * cout, divisor + p * cin)
    else Ok (dividend + p * cin, divisor + p * cout)
  else Raise (AssertionError monovalent_msg).

(** [ghk(C_outs, C_ins, ps, zs)]. *)
Definition ghk (C_outs C_ins ps : list R) (zs : list Z) : result npfloat :=
  acc <- for_in (zip4 C_ins C_outs ps zs) ghk_body (0, 0) ;;
  q <- truediv (fst acc) (snd acc) ;;
  Ok (fmul (fmul (Fin RTF) (np_log q)) (Fin 1000)).

(** The membrane permeabilities of the notebook. *)
Definition pK : R := 1.
Definition pNa : R := 0.05.
Definition pCl : R := 0.45.

End Ions.

(** ** The specification's formulas, for comparison with the code *)

Module Spec.

Definition Rsum (xs : list R) : R := fold_right Rplus 0 xs.

(** "only when [t - t_s >= 0]". *)
Definition causal (t t_s : R) : bool :=
  if Rge_dec (t - t_s) 0 then true else false.

(** [conductance_at]: the sum, over the spike times with [t - t_s >= 0],
    of [g_max * pw (-(t - t_s)/tau)].  The specification takes the natural
    exponential [exp] for [pw]. *)
Definition conductance_with (pw : R -> R) (t : R) (spike_times : list R)
  (g_max tau : R) : R :=
  Rsum (map (fun t_s => g_max * pw (- (t - t_s) / tau))
            (filter (causal t) spike_times)).

Definition conductance_at : R -> list R -> R -> R -> R :=
  conductance_with exp.

(** GHK: a positive-valence ion contributes [p * C_out] to the numerator
    and [p * C_in] to the denominator, a negative-valence ion [p * C_in]
    to the numerator and [p * C_out] to the denominator. *)
Definition to_numerator (ion : R * R * R * Z) : R :=
  let '(cout, cin, p, z) := ion in
  if (0 <? z)%Z then p * cout else if (z <? 0)%Z then p * cin else 0.

Definition to_denominator (ion : R * R * R * Z) : R :=
  let '(cout, cin, p, z) := ion in
  if (0 <? z)%Z then p * cin else if (z <? 0)%Z then p * cout else 0.

Definition numerator (C_outs C_ins ps : list R) (zs : list Z) : R :=
  Rsum (map to_numerator (combine (combine (combine C_outs C_ins) ps) zs)).

Definition denominator (C_outs C_ins ps : list R) (zs : list Z) : R :=
  Rsum (map to_denominator (combine (combine (combine C_outs C_ins) ps) zs)).

Definition monovalent (z : Z) : Prop := Z.abs z = 1%Z.

(** The length of the shortest of the four sequences. *)
Definition shortest {A B C D : Type}
  (a : list A) (b : list B) (c : list C) (d : list D) : nat :=
  Nat.min (Nat.min (List.length a) (List.length b))
          (Nat.min (List.length c) (List.length d)).

End Spec.

(** ** Certified lower bounds of the exponential

    [(1 + x / 2^k) ^ (2^k) <= exp x]; the power is taken by [k] squarings
    on fixed-point numbers, each rounded down. *)

Module ExpBound.

Definition scale : Z := (10 ^ 40)%Z.

Definition sq_down (m : Z) : Z := (m * m / scale)%Z.

Fixpoint sq_iter (k : nat) (m : Z) : Z :=
  match k with
  | O => m
  | S k' => sq_iter k' (sq_down m)
  end.

(** [scale * (1 + (p/q) / 2^k)], rounded down. *)
Definition start (k : nat) (p q : Z) : Z :=
  (scale + scale * p / (q * 2 ^ Z.of_nat k))%Z.

(** [exp_ge k p q cn cd = true] certifies [cn/cd <= exp (p/q)]. *)
Definition exp_ge (k : nat) (p q cn cd : Z) : bool :=
  (0 <? q)%Z && (0 <? cd)%Z && (0 <=? start k p q)%Z
  && (cn * scale <=? sq_iter k (start k p q) * cd)%Z.

(** [ln_ge k p q cn cd = true] certifies [p/q <= ln (cn/cd)], through
    [cd/cn <= exp (-p/q)]. *)
Definition ln_ge (k : nat) (p q cn cd : Z) : bool :=
  (0 <? cd)%Z && exp_ge k (- p) q cd cn.

(** [ln_le k p q cn cd = true] certifies [ln (cn/cd) <= p/q], through
    [cn/cd <= exp (p/q)]. *)
Definition ln_le (k : nat) (p q cn cd : Z) : bool :=
  (0 <? cn)%Z && exp_ge k p q cn cd.

End ExpBound.

(** ** The synapse notebook, continued: the ion tables and [nernst] *)

Module IonTables.
Import Ions.

(** How a call that reads dictionaries ends: with a value, with one of the
    exceptions of [Py.exn], or with the [KeyError] of a missing key. *)
Inductive outcome (A : Type) : Type :=
| Returns (a : A)
| Raises (err : exn)
| KeyError (key : string).

Arguments Returns {A} a.
Arguments Raises {A} err.
Arguments KeyError {A} key.

Definition and_then {A B : Type} (m : outcome A) (k : A -> outcome B) : outcome B :=
  match m with
  | Returns a => k a
  | Raises err => Raises err
  | KeyError key => KeyError key
  end.

Definition of_result {A : Type} (r : result A) : outcome A :=
  match r with
  | Ok a => Returns a
  | Raise err => Raises err
  end.

(** A dictionary, given by its items; the keys of the tables below are
    distinct. *)
Definition dict (V : Type) : Type := list (string * V).

(** [d[key]] *)
Fixpoint getitem {V : Type} (d : dict V) (key : string) : outcome V :=
  match d with
  | [] => KeyError key
  | (k, v) :: d' => if String.eqb k key then Returns v else getitem d' key
  end.

(** [C = concentrations = {'K': {'i':140,'o':5}, ...}] *)
Definition concentrations : dict (dict R) :=
  [ ("K"%string,    [("i"%string, 140); ("o"%string, 5)]);
    ("Na"%string,   [("i"%string, 15);  ("o"%string, 125)]);
    ("Cl"%string,   [("i"%string, 5);   ("o"%string, 135)]);
    ("HCO3"%string, [("i"%string, 10);  ("o"%string, 25)]) ].

(** [ion_names = list(concentrations.keys())] *)
Definition ion_names : list string := map fst concentrations.

(** [z = valence = {'K': 1, 'Na': 1, 'Cl': -1, 'HCO3': -1}] *)
Definition valence : dict Z :=
  [ ("K"%string, 1%Z); ("Na"%string, 1%Z); ("Cl"%string, (-1)%Z);
    ("HCO3"%string, (-1)%Z) ].

(** [nernst(ion, conc=None)]: [conc] falls back on the global table, and
    the three arguments of the call of [nernst_ind] are read from left to
    right: [conc[ion]['o']], [conc[ion]['i']], [valence[ion]]. *)
Definition nernst (ion : string) (conc : option (dict (dict R))) : outcome npfloat :=
  let conc := match conc with None => concentrations | Some c => c end in
  and_then (getitem conc ion) (fun entry_o =>
  and_then (getitem entry_o "o"%string) (fun C_out =>
  and_then (getitem conc ion) (fun entry_i =>
  and_then (getitem entry_i "i"%string) (fun C_in =>
  and_then (getitem valence ion) (fun sign =>
  of_result (nernst_ind C_out C_in sign)))))).

End IonTables.

(** ** The synapse notebook, continued: the search for the chloride
    concentration that reverses the GABA-A driving force *)

Module DrivingForce.
Import Ions.

(** [pcl = 0.8], [phco3 = 0.2] *)
Definition pcl : R := 0.8.
Definition phco3 : R := 0.2.

(** [Vm - Em] for a Python number [Vm] and a NumPy float [Em]. *)
Definition rsub (x : R) (v : npfloat) : npfloat :=
  match v with
  | Fin y => Fin (x - y)
  | PInf => NInf
  | NInf => PInf
  | NaN => NaN
  end.

(** [v < 0] on a NumPy float: false on [nan]. *)
Definition negative (v : npfloat) : bool :=
  match v with
  | Fin y => if Rlt_dec y 0 then true else false
  | NInf => true
  | PInf | NaN => false
  end.

(** What the cell holds after some passes of its loop: the two lists,
    the flag [check], and the lines printed so far, each with the driving
    force and the [Cl_i] it names. *)
Record search : Type := Search {
  Em_list : list npfloat;
  driv_list : list npfloat;
  check : bool;
  printed : list (npfloat * nat)
}.

(** The body of [for Cl_i in x], [x = np.arange(0, 135)], with
    [Vm = -65], [C_outs = [135, 25]] and [z = [-1, -1]].  The divisor of
    [ghk] is [0.8*135 + 0.2*25] in every pass, so the division in it
    never meets a zero. *)
Definition search_body (Vm : R) (C_outs : list R) (z : list Z)
  (Cl_i : nat) (s : search) : result search :=
  let C_ins := [INR Cl_i; 10] in
  let ps := [pcl; phco3] in
  Em <- ghk C_outs C_ins ps z ;;
  let Em_list' := Em_list s ++ [Em] in
  let driv_list' := driv_list s ++ [rsub Vm Em] in
  if negative (rsub Vm Em) && negb (check s)
  then Ok (Search Em_list' driv_list' true (printed s ++ [(rsub Vm Em, Cl_i)]))
  else Ok (Search Em_list' driv_list' (check s) (printed s)).

Definition search_cell (n : nat) : result search :=
  for_in (range n) (search_body (-65) [135; 25] [-1; -1]%Z)
         (Search [] [] false []).

End DrivingForce.

(** ** [neuron.ipynb]: the other cells *)

Module NeuronCells.

(** [I_leak = (V_t - V_rest)/R_m]. *)
Definition I_leak (V_t V_rest R_m : R) : result R :=
  truediv (V_t - V_rest) R_m.

(** The first simulation: [dV = (-I_leak + I_e) * dt/C_m] is computed
    once, from the leak current of the initial voltage, and the loop only
    repeats [V_t = V_t + dV]. *)
Definition stale_loop (num_iter : nat) (dV V0 : R) : R :=
  fold_left (fun V_t _ => V_t + dV) (range num_iter) V0.

Definition stale_cell (V_rest R_m I_e dt C_m : R) (num_iter : nat) (V0 : R)
  : result R :=
  leak <- I_leak V0 V_rest R_m ;;
  dV <- truediv ((- leak + I_e) * dt) C_m ;;
  Ok (stale_loop num_iter dV V0).

(** The cell "Voltage over time with injected current":
    [_i_e = I_e if I_i1 < i < I_i2 else 0]. *)
Definition in_window (I_i1 I_i2 : R) (i : nat) : bool :=
  (if Rlt_dec I_i1 (INR i) then true else false)
  && (if Rlt_dec (INR i) I_i2 then true else false).

(** The current [_i_e] of pass [i]. *)
Definition gated (I_e I_i1 I_i2 : R) (i : nat) : R :=
  if in_window I_i1 I_i2 i then I_e else 0.

(** One pass: [_v.append(V_t)], then the leak step with the gated
    current.  The state is the trace [_v] and the voltage [V_t]; a pass
    that raises hands no state on, so what [_v] holds at that moment is
    not part of the result. *)
Definition inject_body (V_rest R_m C_m I_e dt I_i1 I_i2 : R)
  (i : nat) (s : list R * R) : result (list R * R) :=
  let '(_v, V_t) := s in
  let _v' := _v ++ [V_t] in
  leak <- truediv (V_t - V_rest) R_m ;;
  let _i_e := gated I_e I_i1 I_i2 i in
  dV <- truediv ((- leak + _i_e) * dt) C_m ;;
  Ok (_v', V_t + dV).

Definition inject_loop (V_rest R_m C_m I_e dt I_i1 I_i2 : R)
  (num_iter : nat) (V0 : R) : result (list R * R) :=
  for_in (range num_iter) (inject_body V_rest R_m C_m I_e dt I_i1 I_i2) ([], V0).

(** The whole cell: [I_i1 = start/dt], [I_i2 = end/dt], [V_t = V_rest],
    [_v = []], then the loop. *)
Definition inject_cell (V_rest R_m C_m I_e dt start stop : R) (num_iter : nat)
  : result (list R * R) :=
  I_i1 <- truediv start dt ;;
  I_i2 <- truediv stop dt ;;
  inject_loop V_rest R_m C_m I_e dt I_i1 I_i2 num_iter V_rest.

End NeuronCells.

(** * Properties *)

(** ** The Python fragment *)

Section PyFacts.

Context {X St : Type}.

Lemma for_in_app (xs ys : list X) (body : X -> St -> result St) (s : St) :
  for_in (xs ++ ys) body s = s' <- for_in xs body s ;; for_in ys body s'.
Proof.
  revert s; induction xs as [|x xs IH]; intros s; simpl; [reflexivity|].
  destruct (body x s); simpl; auto.
Qed.

(** A loop whose body never raises is a left fold. *)
Lemma for_in_pure (f : St -> X -> St) (xs : list X) (body : X -> St -> result St)
  (s : St) :
  (forall x s', In x xs -> body x s' = Ok (f s' x)) ->
  for_in xs body s = Ok (fold_left f xs s).
Proof.
  revert s; induction xs as [|x xs IH]; intros s H; simpl; [reflexivity|].
  rewrite H by (left; reflexivity). simpl.
  apply IH. intros y s' Hy. apply H. right; exact Hy.
Qed.

End PyFacts.

Lemma range_S (n : nat) : range (S n) = range n ++ [n].
Proof. unfold range. rewrite seq_S. reflexivity. Qed.

Lemma for_in_range_S {St : Type} (n : nat) (body : nat -> St -> result St) (s : St) :
  for_in (range (S n)) body s = s' <- for_in (range n) body s ;; body n s'.
Proof.
  rewrite range_S, for_in_app.
  destruct (for_in (range n) body s) as [s'|err]; simpl; [|reflexivity].
  destruct (body n s'); reflexivity.
Qed.

Lemma truediv_ok (x y : R) : y <> 0 -> truediv x y = Ok (x / y).
Proof. intros H. unfold truediv. destruct (Req_dec_T y 0); [contradiction|reflexivity]. Qed.

Lemma truediv_zero (x : R) : truediv x 0 = Raise ZeroDivisionError.
Proof. unfold truediv. destruct (Req_dec_T 0 0); [reflexivity|]. exfalso; auto. Qed.

Lemma float_pow_ok (b x : R) :
  Rpower b x <= float_max -> float_pow b x = Ok (Rpower b x).
Proof.
  intros H. unfold float_pow.
  destruct (Rlt_dec float_max (Rpower b x)); [exfalso; lra|reflexivity].
Qed.

Lemma float_pow_raises (b x : R) :
  float_max < Rpower b x -> float_pow b x = Raise OverflowError.
Proof.
  intros H. unfold float_pow.
  destruct (Rlt_dec float_max (Rpower b x)); [reflexivity|contradiction].
Qed.

Lemma np_log_pos (x : R) : 0 < x -> np_log x = Fin (ln x).
Proof. intros H. unfold np_log. destruct (Rlt_dec 0 x); [reflexivity|contradiction]. Qed.

Lemma for_in_map {X Y St : Type} (f : X -> Y) (xs : list X)
  (body : Y -> St -> result St) (s : St) :
  for_in (map f xs) body s = for_in xs (fun x => body (f x)) s.
Proof.
  revert s; induction xs as [|x xs IH]; intros s; simpl; [reflexivity|].
  destruct (body (f x) s); simpl; auto.
Qed.

(** Reading a list through its indices, as [for i in range(len(l))] with
    [l[i]] does, visits its elements in order. *)
Lemma map_nth_range {X : Type} (l : list X) (d : X) :
  map (fun i => nth i l d) (range (List.length l)) = l.
Proof.
  unfold range. induction l as [|x l IH]; simpl; [reflexivity|].
  f_equal. rewrite <- seq_shift, map_map. exact IH.
Qed.

(** ** Sums *)

Lemma fold_left_Rsum {X : Type} (f : X -> R) (xs : list X) (a : R) :
  fold_left (fun acc x => acc + f x) xs a = a + Spec.Rsum (map f xs).
Proof.
  revert a; induction xs as [|x xs IH]; intros a; simpl.
  - unfold Spec.Rsum; simpl; lra.
  - rewrite IH. unfold Spec.Rsum; simpl; lra.
Qed.

(** ** The synaptic conductance [g_syn] *)

Module SynapseFacts.
Import Synapse.

Lemma e_pos : 0 < e.
Proof. unfold e; lra. Qed.

Lemma heaviside_causal (t t_s : R) : heaviside (t - t_s) = Spec.causal t t_s.
Proof.
  unfold heaviside, Spec.causal.
  destruct (Rle_dec 0 (t - t_s)), (Rge_dec (t - t_s) 0); try reflexivity; exfalso; lra.
Qed.

(** The natural powers of [e = 271828/100000], compared with an integer
    on integers. *)
Lemma e_pow_scaled (n : nat) :
  e ^ n * IZR (100000 ^ Z.of_nat n) = IZR (271828 ^ Z.of_nat n).
Proof.
  rewrite <- !pow_IZR, <- Rpow_mult_distr. f_equal. unfold e; lra.
Qed.

Lemma e_scale_pos (n : nat) : 0 < IZR (100000 ^ Z.of_nat n).
Proof. rewrite <- pow_IZR. apply pow_lt. lra. Qed.

Lemma e_pow_le (n : nat) (m : Z) :
  (271828 ^ Z.of_nat n <=? m * 100000 ^ Z.of_nat n)%Z = true -> e ^ n <= IZR m.
Proof.
  intros H. apply Z.leb_le, IZR_le in H.
  rewrite mult_IZR, <- e_pow_scaled in H.
  apply Rmult_le_reg_r with (1 := e_scale_pos n). exact H.
Qed.

Lemma e_pow_gt (n : nat) (m : Z) :
  (m * 100000 ^ Z.of_nat n <? 271828 ^ Z.of_nat n)%Z = true -> IZR m < e ^ n.
Proof.
  intros H. apply Z.ltb_lt, IZR_lt in H.
  rewrite mult_IZR, <- e_pow_scaled in H.
  apply Rmult_lt_reg_r with (1 := e_scale_pos n). exact H.
Qed.

Lemma Rpower_e_nat (n : nat) : Rpower e (INR n) = e ^ n.
Proof. apply Rpower_pow, e_pos. Qed.

(** [max_gain * e ** 700] is a double: [e ** 7 <= 1097], and
    [1000 * 1097 ^ 100] is below [float_max]. *)
Lemma e_700_fits : max_gain * Rpower e safe_exponent <= float_max.
Proof.
  replace safe_exponent with (INR (7 * 100))
    by (rewrite INR_IZR_INZ; reflexivity).
  rewrite Rpower_e_nat, pow_mult.
  assert (H7 : e ^ 7 <= IZR 1097) by (apply e_pow_le; vm_compute; reflexivity).
  assert (H : (e ^ 7) ^ 100 <= IZR 1097 ^ 100).
  { apply pow_incr. split; [apply pow_le; unfold e; lra|exact H7]. }
  rewrite pow_IZR in H.
  assert (H' : IZR (1000 * 1097 ^ Z.of_nat 100) <= float_max).
  { apply IZR_le, Z.leb_le. vm_compute. reflexivity. }
  rewrite mult_IZR in H'. unfold max_gain. lra.
Qed.

Lemma Rpower_e_pos (x : R) : 0 < Rpower e x.
Proof. unfold Rpower. apply exp_pos. Qed.

Lemma Rpower_e_mono (x y : R) : x <= y -> Rpower e x <= Rpower e y.
Proof. intros H. apply Rle_Rpower; [unfold e; lra|exact H]. Qed.

(** Within the range no term of [g_syn] leaves the doubles. *)
Lemma term_fits (g_max x : R) :
  Rabs g_max <= max_gain -> x <= safe_exponent ->
  Rabs (g_max * Rpower e x) <= float_max.
Proof.
  intros Hg Hx. rewrite Rabs_mult.
  rewrite (Rabs_pos_eq (Rpower e x)) by (left; apply Rpower_e_pos).
  apply Rle_trans with (2 := e_700_fits).
  apply Rmult_le_compat; [apply Rabs_pos|left; apply Rpower_e_pos|exact Hg|].
  apply Rpower_e_mono, Hx.
Qed.

(** [e ** 710] is no double: [e ** 10 > 22025], and [22025 ^ 71] is
    above [float_max]. *)
Lemma e_710_overflows : float_max < Rpower e 710.
Proof.
  replace 710 with (INR (10 * 71)) by (rewrite INR_IZR_INZ; reflexivity).
  rewrite Rpower_e_nat, pow_mult.
  assert (H10 : IZR 22025 < e ^ 10) by (apply e_pow_gt; vm_compute; reflexivity).
  assert (H : IZR 22025 ^ 71 <= (e ^ 10) ^ 71).
  { apply pow_incr. lra. }
  rewrite pow_IZR in H.
  assert (H' : float_max < IZR (22025 ^ Z.of_nat 71)).
  { apply IZR_lt, Z.ltb_lt. vm_compute. reflexivity. }
  lra.
Qed.

Lemma float_pow_safe (x : R) :
  x <= safe_exponent -> float_pow e x = Ok (Rpower e x).
Proof.
  intros H. apply float_pow_ok.
  pose proof (term_fits 1 x) as Hf.
  rewrite Rmult_1_l, Rabs_R1 in Hf.
  rewrite (Rabs_pos_eq (Rpower e x)) in Hf by (left; apply Rpower_e_pos).
  apply Hf; [unfold max_gain; lra|exact H].
Qed.

Lemma float_pow_far (x : R) :
  710 <= x -> float_pow e x = Raise OverflowError.
Proof.
  intros H. apply float_pow_raises.
  apply Rlt_le_trans with (1 := e_710_overflows).
  apply Rpower_e_mono, H.
Qed.

Lemma in_range_cons (t tau t_s : R) (spks : list R) :
  in_range t tau (t_s :: spks) <->
  - (t - t_s) / tau <= safe_exponent /\ in_range t tau spks.
Proof.
  unfold in_range.
  apply (Forall_cons_iff (fun s => - (t - s) / tau <= safe_exponent)).
Qed.

(** A spike that is not later than [t] is in range when [tau] is
    positive. *)
Lemma past_in_range (t tau t_s : R) :
  0 < tau -> t_s <= t -> - (t - t_s) / tau <= safe_exponent.
Proof.
  intros Htau H. unfold safe_exponent.
  apply Rle_trans with 0; [|lra].
  unfold Rdiv. rewrite <- (Rmult_0_l (/ tau)).
  apply Rmult_le_compat_r; [left; apply Rinv_0_lt_compat, Htau|lra].
Qed.

Lemma Rsum_terms (pw : R -> R) (t g_max tau : R) (spks : list R) :
  Spec.Rsum (map (term pw t g_max tau) spks) = Spec.conductance_with pw t spks g_max tau.
Proof.
  unfold Spec.conductance_with.
  induction spks as [|s spks IH]; simpl; [reflexivity|].
  unfold Spec.Rsum in *; simpl. rewrite IH. unfold term at 1.
  rewrite heaviside_causal. destruct (Spec.causal t s); simpl; lra.
Qed.

(** The loop of [g_syn] visits the spike times in order. *)
Lemma g_syn_elems (t : R) (spks : list R) (g_max tau : R) :
  g_syn t spks g_max tau =
  for_in spks (fun s total =>
    x <- truediv (- (t - s)) tau ;;
    p <- float_pow e x ;;
    Ok (total + g_max * p * float_of_bool (heaviside (t - s)))) 0.
Proof.
  unfold g_syn.
  rewrite <- (for_in_map (fun i => nth i spks 0) (range (List.length spks))
    (fun s total => x <- truediv (- (t - s)) tau ;;
       p <- float_pow e x ;;
       Ok (total + g_max * p * float_of_bool (heaviside (t - s))))).
  rewrite map_nth_range. reflexivity.
Qed.

(** With a non-zero [tau] and no spike so far ahead that its power
    overflows, the loop of [g_syn] runs to its end and returns the sum the
    specification describes, on the powers of the notebook's constant
    [e]. *)
Lemma g_syn_sum (t : R) (spks : list R) (g_max tau : R) :
  tau <> 0 -> in_range t tau spks ->
  g_syn t spks g_max tau = Ok (Spec.conductance_with (Rpower e) t spks g_max tau).
Proof.
  intros Htau Hr. rewrite g_syn_elems.
  rewrite (for_in_pure (fun total s => total + term (Rpower e) t g_max tau s)).
  - rewrite fold_left_Rsum, Rsum_terms. f_equal. lra.
  - intros s total Hs. rewrite truediv_ok by exact Htau. simpl.
    unfold in_range in Hr. rewrite Forall_forall in Hr.
    rewrite float_pow_safe by (apply Hr, Hs). reflexivity.
Qed.

Lemma in_range_nil (t tau : R) : in_range t tau [].
Proof. apply Forall_nil. Qed.

Lemma in_range_one (t tau t_s : R) :
  - (t - t_s) / tau <= safe_exponent -> in_range t tau [t_s].
Proof. intros H. apply in_range_cons. split; [exact H|apply in_range_nil]. Qed.

(** For a positive [tau] the exponents only fall as [t] advances. *)
Lemma in_range_later (t t' tau : R) (spks : list R) :
  0 < tau -> t <= t' -> in_range t tau spks -> in_range t' tau spks.
Proof.
  intros Htau Hle. unfold in_range. apply Forall_impl. intros s H.
  apply Rle_trans with (2 := H). unfold Rdiv.
  apply Rmult_le_compat_r; [left; apply Rinv_0_lt_compat, Htau|lra].
Qed.


Lemma in_range_filter (t tau : R) (f : R -> bool) (spks : list R) :
  in_range t tau spks -> in_range t tau (filter f spks).
Proof.
  unfold in_range. rewrite !Forall_forall. intros H s Hs.
  apply H. apply filter_In in Hs. tauto.
Qed.

(** A spike so far ahead that its power overflows makes the loop raise,
    although the gate would have dropped its term. *)
Lemma g_syn_overflows (t : R) (spks : list R) (g_max tau : R) :
  tau <> 0 -> Exists (fun t_s => 710 <= - (t - t_s) / tau) spks ->
  g_syn t spks g_max tau = Raise OverflowError.
Proof.
  intros Htau H. rewrite g_syn_elems. generalize 0 as total.
  induction H as [s spks Hs|s spks _ IH]; intros total; simpl;
    rewrite truediv_ok by exact Htau; simpl.
  - rewrite float_pow_far by exact Hs. reflexivity.
  - unfold float_pow. destruct (Rlt_dec float_max _); simpl; [reflexivity|apply IH].
Qed.

Lemma g_syn_far_spike : g_syn 0 [4000] 50 5 = Raise OverflowError.
Proof. apply g_syn_overflows; [lra|]. apply Exists_cons_hd. lra. Qed.

(** With [tau = 0] the first spike already raises. *)
Lemma g_syn_tau_zero (t : R) (spks : list R) (g_max : R) :
  spks <> [] -> g_syn t spks g_max 0 = Raise ZeroDivisionError.
Proof.
  intros H. destruct spks as [|s spks]; [contradiction|].
  unfold g_syn. simpl. unfold g_syn_body at 1. rewrite truediv_zero. reflexivity.
Qed.

End SynapseFacts.

(** ** Soundness of the certified bounds *)

Module ExpBoundFacts.
Import ExpBound.

Lemma scale_pos : 0 < IZR scale.
Proof. apply IZR_lt. reflexivity. Qed.

Lemma IZR_div_le (a b : Z) : (0 < b)%Z -> IZR (a / b) <= IZR a / IZR b.
Proof.
  intros Hb. assert (Hb' : 0 < IZR b) by (apply IZR_lt; exact Hb).
  apply Rmult_le_reg_r with (IZR b); [exact Hb'|].
  unfold Rdiv. rewrite Rmult_assoc, Rinv_l, Rmult_1_r by lra.
  rewrite <- mult_IZR. apply IZR_le. rewrite Z.mul_comm. apply Z.mul_div_le. exact Hb.
Qed.

Lemma exp_pow (x : R) (n : nat) : exp x ^ n = exp (INR n * x).
Proof.
  induction n as [|n IH].
  - simpl. rewrite Rmult_0_l, exp_0. reflexivity.
  - rewrite S_INR. simpl. rewrite IH, <- exp_plus. f_equal. lra.
Qed.

Lemma pow2_pos (k : nat) : 0 < 2 ^ k.
Proof. apply pow_lt; lra. Qed.

(** [(1 + x/2^k)^(2^k)] and everything below it bounds [exp x] from below. *)
Lemma pow_le_exp (k : nat) (x y : R) :
  0 <= y <= 1 + x / 2 ^ k -> y ^ (2 ^ k)%nat <= exp x.
Proof.
  intros [Hy Hle].
  replace x with (INR (2 ^ k) * (x / 2 ^ k)).
  - rewrite <- exp_pow. apply pow_incr. split; [exact Hy|].
    apply Rle_trans with (1 := Hle). apply exp_ineq1_le.
  - rewrite pow_INR. replace (INR 2) with 2 by (simpl; lra).
    pose proof (pow2_pos k). set (c := 2 ^ k) in *. field. lra.
Qed.

Lemma sq_down_nonneg (m : Z) : (0 <= m)%Z -> (0 <= sq_down m)%Z.
Proof. intros H. unfold sq_down. apply Z.div_pos; [nia|reflexivity]. Qed.

Lemma sq_down_le (m : Z) :
  IZR (sq_down m) / IZR scale <= (IZR m / IZR scale) ^ 2.
Proof.
  pose proof scale_pos as Hs. unfold sq_down.
  apply Rle_trans with (IZR (m * m) / IZR scale / IZR scale).
  - apply Rmult_le_compat_r; [left; apply Rinv_0_lt_compat; exact Hs|].
    apply IZR_div_le. reflexivity.
  - rewrite mult_IZR. right. field. lra.
Qed.

Lemma sq_iter_sound (k : nat) (m : Z) :
  (0 <= m)%Z ->
  0 <= IZR (sq_iter k m) / IZR scale <= (IZR m / IZR scale) ^ (2 ^ k)%nat.
Proof.
  pose proof scale_pos as Hs.
  revert m; induction k as [|k IH]; intros m Hm.
  - simpl. split; [|lra].
    apply Rmult_le_pos; [apply IZR_le; exact Hm|left; apply Rinv_0_lt_compat; exact Hs].
  - change (sq_iter (S k) m) with (sq_iter k (sq_down m)).
    destruct (IH (sq_down m) (sq_down_nonneg m Hm)) as [H0 H1].
    split; [exact H0|].
    apply Rle_trans with (1 := H1).
    replace (2 ^ S k)%nat with (2 * 2 ^ k)%nat by (simpl; lia).
    rewrite pow_mult. apply pow_incr. split; [|apply sq_down_le].
    apply Rmult_le_pos; [apply IZR_le, sq_down_nonneg; exact Hm|].
    left; apply Rinv_0_lt_compat; exact Hs.
Qed.

Lemma start_le (k : nat) (p q : Z) :
  (0 < q)%Z -> IZR (start k p q) / IZR scale <= 1 + IZR p / IZR q / 2 ^ k.
Proof.
  intros Hq. pose proof scale_pos as Hs. pose proof (pow2_pos k) as H2.
  assert (Hq' : 0 < IZR q) by (apply IZR_lt; exact Hq).
  replace (2 ^ k) with (IZR 2 ^ k) in * by reflexivity.
  assert (Hd : (0 < q * 2 ^ Z.of_nat k)%Z).
  { apply Z.mul_pos_pos; [exact Hq|]. apply Z.pow_pos_nonneg; lia. }
  unfold start. rewrite plus_IZR.
  pose proof (IZR_div_le (scale * p) (q * 2 ^ Z.of_nat k) Hd) as H.
  rewrite !mult_IZR, <- pow_IZR in H.
  apply Rle_trans with ((IZR scale + IZR scale * IZR p / (IZR q * 2 ^ k)) / IZR scale).
  - apply Rmult_le_compat_r; [left; apply Rinv_0_lt_compat; exact Hs|]. lra.
  - right. field. lra.
Qed.

Theorem exp_ge_sound (k : nat) (p q cn cd : Z) :
  exp_ge k p q cn cd = true -> IZR cn / IZR cd <= exp (IZR p / IZR q).
Proof.
  unfold exp_ge. rewrite !andb_true_iff.
  intros [[[Hq Hcd] Hst] Hle].
  apply Z.ltb_lt in Hq, Hcd. apply Z.leb_le in Hst, Hle.
  pose proof scale_pos as Hs.
  assert (Hcd' : 0 < IZR cd) by (apply IZR_lt; exact Hcd).
  destruct (sq_iter_sound k _ Hst) as [_ Hsq].
  apply Rle_trans with (IZR (sq_iter k (start k p q)) / IZR scale).
  - apply IZR_le in Hle. rewrite !mult_IZR in Hle.
    apply Rmult_le_reg_r with (IZR cd * IZR scale); [nra|].
    replace (IZR cn / IZR cd * (IZR cd * IZR scale)) with (IZR cn * IZR scale)
      by (field; lra).
    replace (IZR (sq_iter k (start k p q)) / IZR scale * (IZR cd * IZR scale))
      with (IZR (sq_iter k (start k p q)) * IZR cd) by (field; lra).
    exact Hle.
  - apply Rle_trans with (1 := Hsq). apply pow_le_exp. split.
    + apply Rmult_le_pos; [apply IZR_le; exact Hst|left; apply Rinv_0_lt_compat; exact Hs].
    + apply start_le. exact Hq.
Qed.

Lemma exp_ge_pos (k : nat) (p q cn cd : Z) :
  exp_ge k p q cn cd = true -> 0 < IZR q /\ 0 < IZR cd.
Proof.
  unfold exp_ge. rewrite !andb_true_iff. intros [[[Hq Hcd] _] _].
  apply Z.ltb_lt in Hq, Hcd. split; apply IZR_lt; assumption.
Qed.

Theorem ln_ge_sound (k : nat) (p q cn cd : Z) :
  ln_ge k p q cn cd = true -> IZR p / IZR q <= ln (IZR cn / IZR cd).
Proof.
  unfold ln_ge. rewrite andb_true_iff. intros [Hcd H].
  apply Z.ltb_lt, IZR_lt in Hcd.
  destruct (exp_ge_pos _ _ _ _ _ H) as [Hq Hcn].
  apply exp_ge_sound in H.
  rewrite opp_IZR in H.
  replace (- IZR p / IZR q) with (- (IZR p / IZR q)) in H by (field; lra).
  rewrite exp_Ropp in H.
  pose proof (exp_pos (IZR p / IZR q)) as He.
  assert (Hy : 0 < IZR cn / IZR cd) by (apply Rdiv_lt_0_compat; assumption).
  destruct (Rle_or_lt (IZR p / IZR q) (ln (IZR cn / IZR cd))) as [Hle|Hlt];
    [exact Hle|exfalso].
  apply exp_increasing in Hlt. rewrite exp_ln in Hlt by exact Hy.
  apply Rinv_lt_contravar in Hlt; [|apply Rmult_lt_0_compat; assumption].
  replace (/ (IZR cn / IZR cd)) with (IZR cd / IZR cn) in Hlt by (field; lra).
  lra.
Qed.

Theorem ln_le_sound (k : nat) (p q cn cd : Z) :
  ln_le k p q cn cd = true -> ln (IZR cn / IZR cd) <= IZR p / IZR q.
Proof.
  unfold ln_le. rewrite andb_true_iff. intros [Hcn H].
  apply Z.ltb_lt, IZR_lt in Hcn.
  destruct (exp_ge_pos _ _ _ _ _ H) as [Hq Hcd].
  apply exp_ge_sound in H.
  assert (Hy : 0 < IZR cn / IZR cd) by (apply Rdiv_lt_0_compat; assumption).
  destruct (Rle_or_lt (ln (IZR cn / IZR cd)) (IZR p / IZR q)) as [Hle|Hlt];
    [exact Hle|exfalso].
  apply exp_increasing in Hlt. rewrite exp_ln in Hlt by exact Hy. lra.
Qed.

End ExpBoundFacts.

(** ** Numerical facts used below *)

Module Numbers.
Import ExpBound ExpBoundFacts.

(** A certificate is a closed boolean that evaluates to [true]. *)
Ltac certify name check := assert (name : check = true) by (vm_compute; reflexivity).

(** The constant [e = 2.71828] of the notebook is below Euler's number. *)
Lemma e_lt_exp_1 : Synapse.e < exp 1.
Proof.
  certify H (exp_ge 30 1 1 2718281 1000000).
  apply exp_ge_sound in H. replace (1 / 1) with 1 in H by lra.
  unfold Synapse.e. lra.
Qed.

Lemma ln_27_bounds : 3.2955 <= ln 27 <= 3.2961.
Proof.
  certify Hlo (ln_ge 30 32955 10000 27 1).
  certify Hhi (ln_le 30 32961 10000 27 1).
  apply ln_ge_sound in Hlo. apply ln_le_sound in Hhi.
  replace (27 / 1) with 27 in * by lra. lra.
Qed.

Lemma ln_ghk_bounds : -2.6084 <= ln (14.75 / 200.25) <= -2.6082.
Proof.
  certify Hlo (ln_ge 30 (-26084) 10000 59 801).
  certify Hhi (ln_le 30 (-26082) 10000 59 801).
  apply ln_ge_sound in Hlo. apply ln_le_sound in Hhi.
  replace (14.75 / 200.25) with (59 / 801) by lra. lra.
Qed.

Lemma exp_20_3_ge : 2000 <= exp 20.3.
Proof.
  certify H (exp_ge 10 203 10 2000 1).
  apply exp_ge_sound in H. replace (203 / 10) with 20.3 in H by lra. lra.
Qed.

End Numbers.

(** ** Claims on the synaptic conductance *)

Module ConductanceClaims.
Import Synapse SynapseFacts.

Lemma causal_now (t : R) : Spec.causal t t = true.
Proof.
  unfold Spec.causal. destruct (Rge_dec (t - t) 0); [reflexivity|exfalso; lra].
Qed.

Lemma conductance_single (pw : R -> R) (t t_s g_max tau : R) :
  Spec.conductance_with pw t [t_s] g_max tau
  = if Spec.causal t t_s then g_max * pw (- (t - t_s) / tau) else 0.
Proof.
  unfold Spec.conductance_with, Spec.Rsum. simpl.
  destruct (Spec.causal t t_s); simpl; lra.
Qed.

(** C2, at the input [g_syn(1, [0], g_max=1, tau=1)]: the code returns
    [1/e] for its constant [e = 2.71828], the specified sum is [exp (-1)]
    for the natural exponential, and the two numbers differ. *)
Theorem g_syn_decay_base_is_not_natural :
  g_syn 1 [0] 1 1 = Ok (/ e)
  /\ Spec.conductance_at 1 [0] 1 1 = exp (- 1)
  /\ / e <> exp (- 1).
Proof.
  assert (Hc : Spec.causal 1 0 = true).
  { unfold Spec.causal. destruct (Rge_dec (1 - 0) 0); [reflexivity|exfalso; lra]. }
  assert (He : exp (- 1) = / exp 1) by (rewrite <- exp_Ropp; f_equal; lra).
  split; [|split].
  - rewrite g_syn_sum by (try apply in_range_one; unfold safe_exponent; lra).
    f_equal.
    rewrite conductance_single, Hc. unfold Rpower.
    replace (- (1 - 0) / 1 * ln e) with (- ln e) by lra.
    rewrite exp_Ropp, exp_ln by apply e_pos. lra.
  - unfold Spec.conductance_at. rewrite conductance_single, Hc.
    replace (- (1 - 0) / 1) with (- 1) by lra. lra.
  - rewrite He. intros H. apply Rinv_eq_reg in H.
    pose proof Numbers.e_lt_exp_1. lra.
Qed.

(** C6: queried at the instant of its only spike, [g_syn] returns the peak
    conductance [g_max]. *)
Theorem g_syn_at_spike_instant (g_max tau t_s : R) :
  0 < tau -> g_syn t_s [t_s] g_max tau = Ok g_max.
Proof.
  intros Htau.
  rewrite g_syn_sum by (try apply in_range_one, past_in_range; lra).
  f_equal.
  rewrite conductance_single, causal_now.
  replace (- (t_s - t_s) / tau) with 0 by (field; lra).
  rewrite Rpower_O by apply e_pos. lra.
Qed.

(** At the last spike of the notebook's example, [t = 40]. *)
Lemma g_syn_at_spike_instant_witness : 0 < 5 /\ g_syn 40 [40] 50 5 = Ok 50.
Proof.
  split; [lra|]. apply (g_syn_at_spike_instant 50 5 40). lra.
Defined.

End ConductanceClaims.

(** ** Claims on the membrane integration *)

Module IntegrationClaims.
Import Synapse SynapseFacts.





(** A pass that meets a spike too far ahead raises, whatever the voltage:
    here the excitatory spike at 3000 ms in the first pass, where
    [e**750.0] overflows. *)
Lemma step_far_spike (V : R) :
  step notebook_membrane 0.1 [] [3000] 0 V = Raise OverflowError.
Proof.
  unfold step. rewrite truediv_ok by (simpl; lra). simpl.
  unfold I_AMPA. rewrite g_syn_overflows; [reflexivity|unfold AMPA_tau; lra|].
  apply Exists_cons_hd. unfold AMPA_tau. lra.
Qed.



End IntegrationClaims.

(** ** Claim on the leak-only run *)

Module LeakClaims.
Import Neuron.

Lemma leak_step_ok (Vr Rm dt Cm V : R) :
  Rm <> 0 -> Cm <> 0 ->
  leak_step Vr Rm 0 dt Cm V = Ok (Vr + (V - Vr) * (1 - dt / (Rm * Cm))).
Proof.
  intros HR HC. unfold leak_step.
  rewrite (truediv_ok _ _ HR). simpl. rewrite (truediv_ok _ _ HC). simpl.
  f_equal. field. split; assumption.
Qed.

(** Without external current the distance to [V_rest] shrinks by the
    factor [1 - dt/(R_m*C_m)] in every pass. *)
Lemma leak_loop_closed (Vr Rm dt Cm : R) (n : nat) (V0 : R) :
  Rm <> 0 -> Cm <> 0 ->
  leak_loop Vr Rm 0 dt Cm n V0 = Ok (Vr + (V0 - Vr) * (1 - dt / (Rm * Cm)) ^ n).
Proof.
  intros HR HC. induction n as [|n IH].
  - unfold leak_loop. simpl. f_equal. lra.
  - unfold leak_loop in *. rewrite for_in_range_S, IH. simpl.
    rewrite leak_step_ok by assumption. f_equal. lra.
Qed.

(** The same for the loop of the synapse notebook when both spike lists
    are empty and [I_e = 0]. *)
Lemma simulate_leak_only (p : Synapse.membrane) (dt : R) (n : nat) (V0 : R) :
  Synapse.R_m p <> 0 -> Synapse.A p <> 0 -> Synapse.C_m p <> 0 ->
  Synapse.I_e p = 0 ->
  Synapse.simulate p dt [] [] n V0
  = Ok (Synapse.V_rest p
        + (V0 - Synapse.V_rest p) * (1 - dt / (Synapse.R_m p * Synapse.C_m p)) ^ n).
Proof.
  intros HR HA HC HI. induction n as [|n IH].
  - unfold Synapse.simulate. simpl. f_equal. lra.
  - unfold Synapse.simulate in *. rewrite for_in_range_S, IH. simpl.
    unfold Synapse.step. rewrite (truediv_ok _ _ HR). simpl.
    rewrite (truediv_ok _ _ HA). simpl. rewrite (truediv_ok _ _ HC). simpl.
    f_equal. rewrite HI. field. repeat split; assumption.
Qed.

Lemma num_iter_value : Z.of_nat num_iter = 4060%Z.
Proof. reflexivity. Qed.

(** [0.995 <= exp (-0.005)], so 4060 factors are below [exp (-20.3)]. *)
Lemma decay_num_iter : 0 <= 0.995 ^ num_iter <= / 2000.
Proof.
  split; [apply pow_le; lra|].
  apply Rle_trans with (exp (- 0.005) ^ num_iter).
  - apply pow_incr. split; [lra|].
    pose proof (exp_ineq1_le (- 0.005)). lra.
  - rewrite ExpBoundFacts.exp_pow, INR_IZR_INZ, num_iter_value.
    replace (4060 * - 0.005) with (Ropp 20.3) by lra.
    rewrite exp_Ropp. apply Rinv_le_contravar; [lra|apply Numbers.exp_20_3_ge].
Qed.

Lemma near_rest (Vr x : R) : 0 <= x <= / 2000 -> Rabs (Vr + 2 * x - Vr) <= 0.001.
Proof. intros H. apply Rabs_le. lra. Qed.

Lemma leak_loop_near_rest (n : nat) :
  0 <= 0.995 ^ n <= / 2000 ->
  exists V,
    leak_loop V_rest R_m I_e dt C_m n (V_rest + 2) = Ok V
    /\ Rabs (V - V_rest) <= 0.001.
Proof.
  intros H. eexists. split.
  - apply leak_loop_closed; unfold R_m, C_m; lra.
  - replace (1 - dt / (R_m * C_m)) with 0.995 by (unfold dt, R_m, C_m; lra).
    replace (V_rest + 2 - V_rest) with 2 by lra.
    apply near_rest, H.
Qed.

Lemma simulate_near_rest (n : nat) :
  0 <= 0.995 ^ n <= / 2000 ->
  exists V,
    Synapse.simulate Synapse.notebook_membrane 0.5 [] [] n (-65 + 2) = Ok V
    /\ Rabs (V - (-65)) <= 0.001.
Proof.
  intros H. eexists. split.
  - apply simulate_leak_only; simpl; lra.
  - change (Synapse.V_rest Synapse.notebook_membrane) with (-65).
    change (Synapse.R_m Synapse.notebook_membrane) with 100.
    change (Synapse.C_m Synapse.notebook_membrane) with 1.
    replace (1 - 0.5 / (100 * 1)) with 0.995 by lra.
    replace (-65 + 2 - -65) with 2 by lra.
    apply near_rest, H.
Qed.

(** C3: from [V_rest + 2 = -63] mV, with [V_rest = -65], [C_m = 1],
    [R_m = 100], [dt = 0.5] and neither synaptic nor external current,
    the 4060 passes end within 0.001 mV of [V_rest]: in the leak-only loop
    of [neuron.ipynb], in the same run on binary64 numbers (between
    [-65 - 2^-10] and [-65 + 2^-10], two binary64 numbers inside the
    tolerance), and in the loop of the synapse notebook without spikes. *)
Theorem leak_only_run_reaches_rest :
  (exists V,
     leak_loop V_rest R_m I_e dt C_m num_iter (V_rest + 2) = Ok V
     /\ Rabs (V - V_rest) <= 0.001)
  /\ (PrimFloat.leb (-65.0009765625)%float notebook_run_b64
      && PrimFloat.leb notebook_run_b64 (-64.9990234375)%float = true)
  /\ (exists V,
        Synapse.simulate Synapse.notebook_membrane 0.5 [] [] num_iter (-65 + 2) = Ok V
        /\ Rabs (V - (-65)) <= 0.001).
Proof.
  split; [|split].
  - apply leak_loop_near_rest, decay_num_iter.
  - vm_compute. reflexivity.
  - apply simulate_near_rest, decay_num_iter.
Qed.

End LeakClaims.

(** ** The loop of [ghk] *)

Module IonsFacts.
Import Ions.

Lemma zip4_firstn {X Y Z' W : Type}
  (a : list X) (b : list Y) (c : list Z') (d : list W) :
  zip4 a b c d
  = zip4 (firstn (Spec.shortest a b c d) a) (firstn (Spec.shortest a b c d) b)
         (firstn (Spec.shortest a b c d) c) (firstn (Spec.shortest a b c d) d).
Proof.
  unfold Spec.shortest. revert b c d.
  induction a as [|x a IH]; intros [|y b] [|z c] [|w d]; simpl; try reflexivity.
  f_equal. apply IH.
Qed.

Lemma zip4_last {X Y Z' W : Type}
  (a : list X) (b : list Y) (c : list Z') (d : list W) :
  map snd (zip4 a b c d) = firstn (Spec.shortest a b c d) d.
Proof.
  unfold Spec.shortest. revert b c d.
  induction a as [|x a IH]; intros [|y b] [|z c] [|w d]; simpl; try reflexivity.
  f_equal. apply IH.
Qed.

Lemma shortest_comm12 {X Y Z' W : Type}
  (a : list X) (b : list Y) (c : list Z') (d : list W) :
  Spec.shortest a b c d = Spec.shortest b a c d.
Proof. unfold Spec.shortest. rewrite (Nat.min_comm (List.length a)). reflexivity. Qed.

Lemma shortest_equal {X Y Z' W : Type}
  (a : list X) (b : list Y) (c : list Z') (d : list W) :
  List.length b = List.length a -> List.length c = List.length a ->
  List.length d = List.length a ->
  Spec.shortest a b c d = List.length a.
Proof. unfold Spec.shortest. intros -> -> ->. rewrite !Nat.min_id. reflexivity. Qed.

Lemma monovalent_cases (z : Z) : Spec.monovalent z -> z = 1%Z \/ z = (-1)%Z.
Proof. unfold Spec.monovalent. lia. Qed.

(** On monovalent ions the loop ends with the two sums of the
    specification added to the accumulators. *)
Lemma ghk_loop_ok (C_outs C_ins ps : list R) (zs : list Z) (dividend divisor : R) :
  Forall Spec.monovalent (firstn (Spec.shortest C_outs C_ins ps zs) zs) ->
  for_in (zip4 C_ins C_outs ps zs) ghk_body (dividend, divisor)
  = Ok (dividend + Spec.numerator C_outs C_ins ps zs,
        divisor + Spec.denominator C_outs C_ins ps zs).
Proof.
  unfold Spec.shortest, Spec.numerator, Spec.denominator, Spec.Rsum.
  revert C_ins ps zs dividend divisor.
  induction C_outs as [|cout C_outs IH];
    intros [|cin C_ins] [|p ps] [|z zs] dividend divisor H; simpl in *;
    try (f_equal; f_equal; lra).
  inversion H as [|? ? Hz Hrest]; subst.
  destruct (monovalent_cases z Hz) as [-> | ->]; simpl; rewrite IH by exact Hrest;
    f_equal; f_equal; lra.
Qed.

(** A valence among the zipped tuples whose magnitude is not 1 stops the
    loop at the assertion. *)
Lemma ghk_loop_raises (ions : list (R * R * R * Z)) (acc : R * R) :
  Exists (fun ion => ~ Spec.monovalent (snd ion)) ions ->
  for_in ions ghk_body acc = Raise (AssertionError monovalent_msg).
Proof.
  intros H. revert acc. induction H as [[[[cin cout] p] z] ions Hz | [[[cin cout] p] z] ions _ IH];
    intros [dividend divisor]; simpl in *.
  - destruct (Z.eqb_spec (Z.abs z) 1) as [E|_]; [contradiction|reflexivity].
  - destruct (Z.abs z =? 1)%Z; [|reflexivity].
    destruct (z >? 0)%Z; simpl; apply IH.
Qed.

Lemma ghk_ok (C_outs C_ins ps : list R) (zs : list Z) :
  Forall Spec.monovalent (firstn (Spec.shortest C_outs C_ins ps zs) zs) ->
  ghk C_outs C_ins ps zs
  = (q <- truediv (Spec.numerator C_outs C_ins ps zs)
                  (Spec.denominator C_outs C_ins ps zs) ;;
     Ok (fmul (fmul (Fin RTF) (np_log q)) (Fin 1000))).
Proof.
  intros H. unfold ghk. rewrite ghk_loop_ok by exact H. simpl.
  rewrite !Rplus_0_l. reflexivity.
Qed.

End IonsFacts.

(** ** Claims on the reversal potentials *)

Module PotentialClaims.
Import Ions IonsFacts.

Lemma RTF_value : RTF = 8.314 * 310.25 / 96485.
Proof. reflexivity. Qed.

Lemma nernst_ind_ok (C_out C_in : R) (sign : Z) :
  C_in <> 0 -> sign <> 0%Z ->
  nernst_ind C_out C_in sign
  = Ok (fmul (fmul (Fin (RTF / IZR sign)) (np_log (C_out / C_in))) (Fin 1000)).
Proof.
  intros Hc Hs. unfold nernst_ind.
  rewrite truediv_ok by (intros H; apply eq_IZR_R0 in H; contradiction).
  simpl. rewrite truediv_ok by exact Hc. reflexivity.
Qed.

(** C5: on positive concentrations and a non-zero valence [nernst_ind]
    returns [(RTF / valence) * ln (C_out / C_in) * 1000], [ln] the natural
    logarithm and [RTF = 8.314 * 310.25 / 96485]; [nernst_ind(135, 5, -1)]
    is within 0.01 of -88.11. *)
Theorem nernst_ind_formula :
  (forall (C_out C_in : R) (sign : Z),
     0 < C_out -> 0 < C_in -> sign <> 0%Z ->
     nernst_ind C_out C_in sign
     = Ok (Fin (RTF / IZR sign * ln (C_out / C_in) * 1000)))
  /\ RTF = 8.314 * 310.25 / 96485
  /\ (exists v, nernst_ind 135 5 (-1) = Ok (Fin v) /\ Rabs (v - (-88.11)) <= 0.01).
Proof.
  assert (Hgen : forall (C_out C_in : R) (sign : Z),
     0 < C_out -> 0 < C_in -> sign <> 0%Z ->
     nernst_ind C_out C_in sign
     = Ok (Fin (RTF / IZR sign * ln (C_out / C_in) * 1000))).
  { intros C_out C_in sign Ho Hi Hs.
    rewrite nernst_ind_ok by (try lra; exact Hs).
    rewrite np_log_pos by (apply Rdiv_lt_0_compat; assumption).
    reflexivity. }
  split; [exact Hgen|]. split; [exact RTF_value|].
  eexists. split; [apply Hgen; try lra; discriminate|].
  replace (135 / 5) with 27 by lra.
  pose proof Numbers.ln_27_bounds as [Hlo Hhi].
  unfold RTF, R_gas, T, F.
  apply Rabs_le. lra.
Qed.

(** The sodium concentrations of the notebook. *)
Lemma nernst_ind_formula_witness :
  nernst_ind 125 15 1 = Ok (Fin (RTF / IZR 1 * ln (125 / 15) * 1000)).
Proof.
  apply (proj1 nernst_ind_formula 125 15 1%Z); [lra | lra | discriminate].
Defined.

(** C9, as stated, fails at [nernst_ind(-1, 5, 1)]: the outer
    concentration is not positive, and the call raises nothing. *)
Lemma nernst_ind_negative_concentration_returns :
  ~ (raises (nernst_ind (-1) 5 1) <-> (-1 <= 0 \/ 5 <= 0 \/ 1%Z = 0%Z)).
Proof.
  intros [_ H]. destruct H as [err H]; [left; lra|].
  rewrite nernst_ind_ok in H by (try lra; discriminate). discriminate.
Qed.

Lemma np_log_neg (x : R) : x < 0 -> np_log x = NaN.
Proof.
  intros H. unfold np_log.
  destruct (Rlt_dec 0 x); [exfalso; lra|].
  destruct (Req_dec_T x 0); [exfalso; lra|reflexivity].
Qed.

Lemma np_log_zero : np_log 0 = NInf.
Proof.
  unfold np_log.
  destruct (Rlt_dec 0 0); [exfalso; lra|].
  destruct (Req_dec_T 0 0); [reflexivity|exfalso; auto].
Qed.

Lemma inf_times_infinite (pos : bool) (x : R) :
  x <> 0 -> is_infinite (inf_times pos x).
Proof.
  intros H. unfold inf_times, is_infinite.
  destruct (Rlt_dec 0 x); [destruct pos; auto|].
  destruct (Rlt_dec x 0); [destruct pos; auto|exfalso; lra].
Qed.

Lemma RTF_pos : 0 < RTF.
Proof. unfold RTF, R_gas, T, F. lra. Qed.

(** C9, amended: [nernst_ind] raises exactly when the inner concentration
    or the valence is zero, and what it raises is [ZeroDivisionError];
    on every other input it returns: a finite potential when
    [C_out / C_in] is positive, [nan] when the quotient is negative, an
    infinity when [C_out] is zero. *)
Theorem nernst_ind_raises_iff_zero_divisor (C_out C_in : R) (sign : Z) :
  (raises (nernst_ind C_out C_in sign) <-> C_in = 0 \/ sign = 0%Z)
  /\ (raises (nernst_ind C_out C_in sign) ->
      nernst_ind C_out C_in sign = Raise ZeroDivisionError)
  /\ (C_in <> 0 -> sign <> 0%Z ->
      exists v, nernst_ind C_out C_in sign = Ok v
        /\ (0 < C_out / C_in -> v = Fin (RTF / IZR sign * ln (C_out / C_in) * 1000))
        /\ (C_out / C_in < 0 -> v = NaN)
        /\ (C_out = 0 -> is_infinite v)).
Proof.
  assert (Hz : forall co, nernst_ind co C_in 0 = Raise ZeroDivisionError).
  { intros co. unfold nernst_ind. rewrite truediv_zero. reflexivity. }
  assert (Hc : sign <> 0%Z -> nernst_ind C_out 0 sign = Raise ZeroDivisionError).
  { intros Hs. unfold nernst_ind.
    rewrite truediv_ok by (intros H; apply eq_IZR_R0 in H; contradiction).
    simpl. rewrite truediv_zero. reflexivity. }
  assert (Hok : C_in <> 0 -> sign <> 0%Z ->
      exists v, nernst_ind C_out C_in sign = Ok v
        /\ (0 < C_out / C_in -> v = Fin (RTF / IZR sign * ln (C_out / C_in) * 1000))
        /\ (C_out / C_in < 0 -> v = NaN)
        /\ (C_out = 0 -> is_infinite v)).
  { intros Hi Hs. eexists. split; [apply nernst_ind_ok; assumption|].
    split; [|split].
    - intros Hq. rewrite np_log_pos by exact Hq. reflexivity.
    - intros Hq. rewrite np_log_neg by exact Hq. reflexivity.
    - intros ->. replace (0 / C_in) with 0 by (field; exact Hi).
      rewrite np_log_zero. simpl.
      assert (Hr : RTF / IZR sign <> 0).
      { pose proof RTF_pos. apply Rmult_integral_contrapositive. split; [lra|].
        apply Rinv_neq_0_compat. intros H'. apply eq_IZR_R0 in H'. contradiction. }
      destruct (inf_times_infinite false _ Hr) as [-> | ->]; simpl;
        unfold inf_times, is_infinite;
        destruct (Rlt_dec 0 1000); auto; exfalso; lra. }
  destruct (Z.eq_dec sign 0) as [-> | Hs].
  - split; [|split].
    + split; [auto|]. intros _. exists ZeroDivisionError. apply Hz.
    + intros _. apply Hz.
    + intros _ H. contradiction.
  - destruct (Req_dec_T C_in 0) as [-> | Hi].
    + split; [|split].
      * split; [auto|]. intros _. exists ZeroDivisionError. apply Hc, Hs.
      * intros _. apply Hc, Hs.
      * intros H. contradiction.
    + destruct (Hok Hi Hs) as (v & Hv & Hrest).
      split; [|split].
      * split; [|intros [H|H]; contradiction].
        intros [err H]. rewrite Hv in H. discriminate.
      * intros [err H]. rewrite Hv in H. discriminate.
      * intros _ _. exists v. split; [exact Hv|exact Hrest].
Qed.

(** A negative outer concentration: the call returns [nan]. *)
Lemma nernst_ind_raises_iff_zero_divisor_witness :
  exists v, nernst_ind (-1) 5 1 = Ok v
    /\ (0 < -1 / 5 -> v = Fin (RTF / IZR 1 * ln (-1 / 5) * 1000))
    /\ (-1 / 5 < 0 -> v = NaN)
    /\ (-1 = 0 -> is_infinite v).
Proof.
  apply (proj2 (proj2 (nernst_ind_raises_iff_zero_divisor (-1) 5 1%Z)));
    [lra | discriminate].
Defined.

(** C8, as stated, fails at [ghk([1], [1], [1], [1, 2])]: the valence 2
    lies beyond the shortest sequence, [zip] never yields it, and the call
    returns. *)
Lemma ghk_ignores_valence_beyond_shortest :
  ~ (Exists (fun z => ~ Spec.monovalent z) [1; 2]%Z ->
     raises (ghk [1] [1] [1] [1; 2]%Z)).
Proof.
  intros H. destruct H as [err H].
  - right. left. unfold Spec.monovalent. simpl. lia.
  - unfold ghk in H. simpl in H. rewrite truediv_ok in H by lra. discriminate.
Qed.

(** C8, amended: a valence of magnitude other than 1 among the tuples
    that [zip] yields (the first [n] valences, [n] the length of the
    shortest sequence) makes [ghk] raise the [AssertionError] "only
    monovalent ions supported"; on sequences of equal length that is any
    such valence. *)
Theorem ghk_asserts_monovalent (C_outs C_ins ps : list R) (zs : list Z) :
  (Exists (fun z => ~ Spec.monovalent z)
          (firstn (Spec.shortest C_outs C_ins ps zs) zs) ->
   ghk C_outs C_ins ps zs = Raise (AssertionError monovalent_msg))
  /\ (List.length C_ins = List.length C_outs ->
      List.length ps = List.length C_outs ->
      List.length zs = List.length C_outs ->
      Exists (fun z => ~ Spec.monovalent z) zs ->
      ghk C_outs C_ins ps zs = Raise (AssertionError monovalent_msg)
      /\ raises (ghk C_outs C_ins ps zs)).
Proof.
  assert (Hgen : Exists (fun z => ~ Spec.monovalent z)
          (firstn (Spec.shortest C_outs C_ins ps zs) zs) ->
   ghk C_outs C_ins ps zs = Raise (AssertionError monovalent_msg)).
  { intros H. unfold ghk. rewrite ghk_loop_raises; [reflexivity|].
    rewrite shortest_comm12, <- zip4_last in H.
    apply Exists_exists in H. destruct H as (z & Hin & Hz).
    apply in_map_iff in Hin. destruct Hin as (ion & <- & Hin).
    apply Exists_exists. exists ion. split; assumption. }
  split; [exact Hgen|].
  intros H1 H2 H3 H.
  rewrite shortest_equal, <- H3, firstn_all in Hgen by assumption.
  split; [apply Hgen, H|]. exists (AssertionError monovalent_msg). apply Hgen, H.
Qed.

(** The docstring's call with the second valence doubled. *)
Lemma ghk_asserts_monovalent_witness :
  ghk [4; 125; 110] [150; 15; 10] [pK; pNa; pCl] [1; 2; -1]%Z
  = Raise (AssertionError monovalent_msg).
Proof.
  apply (proj1 (ghk_asserts_monovalent [4; 125; 110] [150; 15; 10] [pK; pNa; pCl]
                  [1; 2; -1]%Z)).
  simpl. right. left. unfold Spec.monovalent. simpl. lia.
Defined.

Lemma ghk_in_domain (C_outs C_ins ps : list R) (zs : list Z) :
  Forall Spec.monovalent (firstn (Spec.shortest C_outs C_ins ps zs) zs) ->
  0 < Spec.numerator C_outs C_ins ps zs ->
  0 < Spec.denominator C_outs C_ins ps zs ->
  ghk C_outs C_ins ps zs
  = Ok (Fin (RTF * ln (Spec.numerator C_outs C_ins ps zs
                       / Spec.denominator C_outs C_ins ps zs) * 1000)).
Proof.
  intros H Hn Hd. rewrite ghk_ok by exact H.
  rewrite truediv_ok by lra. simpl.
  rewrite np_log_pos by (apply Rdiv_lt_0_compat; assumption). reflexivity.
Qed.

(** C4: on four sequences of one length [N >= 1] whose valences all have
    magnitude 1, [ghk] evaluates [RTF * np.log(numerator/denominator) * 1000]
    on the two sums of the specification, which is
    [RTF * ln (numerator/denominator) * 1000] when both sums are positive;
    the call of the docstring returns a value that rounds to -69.73. *)
Theorem ghk_formula :
  (forall (C_outs C_ins ps : list R) (zs : list Z),
     List.length C_ins = List.length C_outs ->
     List.length ps = List.length C_outs ->
     List.length zs = List.length C_outs ->
     (1 <= List.length C_outs)%nat ->
     Forall Spec.monovalent zs ->
     let numerator := Spec.numerator C_outs C_ins ps zs in
     let denominator := Spec.denominator C_outs C_ins ps zs in
     ghk C_outs C_ins ps zs
     = (q <- truediv numerator denominator ;;
        Ok (fmul (fmul (Fin RTF) (np_log q)) (Fin 1000)))
     /\ (0 < numerator -> 0 < denominator ->
         ghk C_outs C_ins ps zs = Ok (Fin (RTF * ln (numerator / denominator) * 1000))))
  /\ (exists v,
        ghk [4; 125; 110] [150; 15; 10] [pK; pNa; pCl] [1; 1; -1]%Z = Ok (Fin v)
        /\ -69.735 < v < -69.725).
Proof.
  split.
  - intros C_outs C_ins ps zs H1 H2 H3 _ Hz numerator denominator.
    assert (H : Forall Spec.monovalent (firstn (Spec.shortest C_outs C_ins ps zs) zs)).
    { rewrite shortest_equal, <- H3, firstn_all by assumption. exact Hz. }
    split; [apply ghk_ok, H|].
    intros Hn Hd. apply ghk_in_domain; assumption.
  - assert (Hn : Spec.numerator [4; 125; 110] [150; 15; 10] [pK; pNa; pCl] [1; 1; -1]%Z
                 = 14.75).
    { unfold Spec.numerator, Spec.Rsum, pK, pNa, pCl. simpl. lra. }
    assert (Hd : Spec.denominator [4; 125; 110] [150; 15; 10] [pK; pNa; pCl] [1; 1; -1]%Z
                 = 200.25).
    { unfold Spec.denominator, Spec.Rsum, pK, pNa, pCl. simpl. lra. }
    eexists. split.
    + apply ghk_in_domain.
      * simpl. repeat constructor.
      * rewrite Hn. lra.
      * rewrite Hd. lra.
    + rewrite Hn, Hd. pose proof Numbers.ln_ghk_bounds as [Hlo Hhi].
      unfold RTF, R_gas, T, F. lra.
Qed.

(** The GABA-A call of the notebook: chloride and bicarbonate. *)
Lemma ghk_formula_witness :
  ghk [135; 25] [5; 10] [0.8; 0.2] [-1; -1]%Z
  = (q <- truediv (Spec.numerator [135; 25] [5; 10] [0.8; 0.2] [-1; -1]%Z)
                  (Spec.denominator [135; 25] [5; 10] [0.8; 0.2] [-1; -1]%Z) ;;
     Ok (fmul (fmul (Fin RTF) (np_log q)) (Fin 1000))).
Proof.
  apply (proj1 ghk_formula [135; 25] [5; 10] [0.8; 0.2] [-1; -1]%Z);
    try reflexivity.
  - simpl. lia.
  - repeat constructor.
Defined.

(** C10, as stated, fails at [ghk([], [150, 15, 10], [1, 0.05, 0.45],
    [1, 1, -1])]: the lengths are unequal, [zip] yields nothing, and the
    division of 0 by 0 raises [ZeroDivisionError]. *)
Lemma ghk_unequal_lengths_can_fail :
  ~ (List.length (@nil R) <> List.length [150; 15; 10] ->
     exists v, ghk [] [150; 15; 10] [pK; pNa; pCl] [1; 1; -1]%Z = Ok v).
Proof.
  intros H. destruct H as [v Hv]; [simpl; discriminate|].
  unfold ghk in Hv. simpl in Hv. rewrite truediv_zero in Hv. discriminate.
Qed.

(** C10, amended: unequal lengths are no error of their own.  [ghk] ends
    as it does on the four sequences cut to the length [n] of the
    shortest, so no element beyond [n] is read.  When the valences up to
    [n] have magnitude 1 and the denominator over these [n] tuples is not
    zero, it returns [RTF * np.log(numerator/denominator) * 1000] on the
    two sums over these tuples; when the shortest sequence is empty, it
    raises [ZeroDivisionError]. *)
Theorem ghk_cuts_to_shortest (C_outs C_ins ps : list R) (zs : list Z) :
  let n := Spec.shortest C_outs C_ins ps zs in
  let numerator :=
    Spec.numerator (firstn n C_outs) (firstn n C_ins) (firstn n ps) (firstn n zs) in
  let denominator :=
    Spec.denominator (firstn n C_outs) (firstn n C_ins) (firstn n ps) (firstn n zs) in
  ghk C_outs C_ins ps zs
  = ghk (firstn n C_outs) (firstn n C_ins) (firstn n ps) (firstn n zs)
  /\ (Forall Spec.monovalent (firstn n zs) -> denominator <> 0 ->
      ghk C_outs C_ins ps zs
      = Ok (fmul (fmul (Fin RTF) (np_log (numerator / denominator))) (Fin 1000)))
  /\ (n = 0%nat -> ghk C_outs C_ins ps zs = Raise ZeroDivisionError).
Proof.
  intros n numerator denominator.
  assert (Heq : ghk C_outs C_ins ps zs
    = ghk (firstn n C_outs) (firstn n C_ins) (firstn n ps) (firstn n zs)).
  { unfold ghk. rewrite (zip4_firstn C_ins C_outs ps zs).
    rewrite (shortest_comm12 C_ins C_outs). reflexivity. }
  split; [exact Heq|split].
  - intros Hz Hd. rewrite Heq.
    assert (Hlen : Spec.shortest (firstn n C_outs) (firstn n C_ins) (firstn n ps)
                     (firstn n zs) = n).
    { unfold Spec.shortest. rewrite !length_firstn. unfold n, Spec.shortest. lia. }
    rewrite ghk_ok.
    + fold numerator denominator. rewrite truediv_ok by exact Hd. reflexivity.
    + rewrite Hlen, firstn_firstn, Nat.min_id. exact Hz.
  - intros Hn. rewrite Heq, Hn. simpl. unfold ghk. simpl.
    rewrite truediv_zero. reflexivity.
Qed.

(** Sequences of lengths 4, 2, 3 and 4: the first two tuples are read and
    give the value. *)
Lemma ghk_cuts_to_shortest_witness :
  ghk [4; 125; 110; 7] [150; 15] [pK; pNa; pCl] [1; 1; -1; 3]%Z
  = Ok (fmul (fmul (Fin RTF)
          (np_log (Spec.numerator [4; 125] [150; 15] [pK; pNa] [1; 1]%Z
                   / Spec.denominator [4; 125] [150; 15] [pK; pNa] [1; 1]%Z)))
          (Fin 1000)).
Proof.
  apply (proj1 (proj2 (ghk_cuts_to_shortest [4; 125; 110; 7] [150; 15] [pK; pNa; pCl]
                         [1; 1; -1; 3]%Z))).
  - simpl. repeat constructor.
  - unfold Spec.denominator, Spec.Rsum, pK, pNa. simpl. lra.
Defined.

End PotentialClaims.

(** * Further properties of the code *)

(** ** The synaptic conductance *)

Module ConductanceFacts.
Import Synapse SynapseFacts.

Lemma ln_e_pos : 0 < ln e.
Proof.
  rewrite <- ln_1. apply ln_increasing; [lra|]. unfold e. lra.
Qed.

Lemma Rpower_e_le_1 (x : R) : x <= 0 -> Rpower e x <= 1.
Proof.
  intros Hx. unfold Rpower. rewrite <- exp_0.
  pose proof ln_e_pos as Hl.
  destruct (Req_dec (x * ln e) 0) as [-> | Hne]; [lra|].
  left. apply exp_increasing. nra.
Qed.

Lemma conductance_nil (pw : R -> R) (t g_max tau : R) :
  Spec.conductance_with pw t [] g_max tau = 0.
Proof. reflexivity. Qed.

Lemma conductance_step (pw : R -> R) (t g_max tau t_s : R) (spks : list R) :
  Spec.conductance_with pw t (t_s :: spks) g_max tau
  = (if Spec.causal t t_s then g_max * pw (- (t - t_s) / tau) else 0)
    + Spec.conductance_with pw t spks g_max tau.
Proof.
  unfold Spec.conductance_with, Spec.Rsum. simpl.
  destruct (Spec.causal t t_s); simpl; lra.
Qed.

Lemma conductance_filter (pw : R -> R) (t g_max tau : R) (spks : list R) :
  Spec.conductance_with pw t (filter (Spec.causal t) spks) g_max tau
  = Spec.conductance_with pw t spks g_max tau.
Proof.
  induction spks as [|s spks IH]; simpl; [reflexivity|].
  destruct (Spec.causal t s) eqn:Hc.
  - rewrite !conductance_step, Hc, IH. reflexivity.
  - rewrite conductance_step, Hc, IH. lra.
Qed.

Lemma causal_false_iff (t t_s : R) : Spec.causal t t_s = false <-> t < t_s.
Proof.
  unfold Spec.causal. destruct (Rge_dec (t - t_s) 0); split; intros H;
    try discriminate; try reflexivity; lra.
Qed.

Lemma causal_true_iff (t t_s : R) : Spec.causal t t_s = true <-> t_s <= t.
Proof.
  unfold Spec.causal. destruct (Rge_dec (t - t_s) 0); split; intros H;
    try discriminate; try reflexivity; lra.
Qed.

Lemma conductance_future (pw : R -> R) (t g_max tau : R) (spks : list R) :
  Forall (fun t_s => t < t_s) spks ->
  Spec.conductance_with pw t spks g_max tau = 0.
Proof.
  induction 1 as [|s spks Hs _ IH]; [apply conductance_nil|].
  rewrite conductance_step, IH.
  apply causal_false_iff in Hs. rewrite Hs. lra.
Qed.

(** Between [t1] and [t2] every term that is present shrinks by the same
    factor. *)
Lemma conductance_decay (t1 t2 g_max tau : R) (spks : list R) :
  tau <> 0 -> t1 <= t2 ->
  Forall (fun t_s => t_s <= t1 \/ t2 < t_s) spks ->
  Spec.conductance_with (Rpower e) t2 spks g_max tau
  = Spec.conductance_with (Rpower e) t1 spks g_max tau
    * Rpower e (- (t2 - t1) / tau).
Proof.
  intros Htau Hle H. induction H as [|s spks Hs _ IH].
  - rewrite !conductance_nil. lra.
  - rewrite !conductance_step, IH. destruct Hs as [Hs|Hs].
    + assert (H1 : Spec.causal t1 s = true) by (apply causal_true_iff; lra).
      assert (H2 : Spec.causal t2 s = true) by (apply causal_true_iff; lra).
      rewrite H1, H2.
      replace (- (t2 - s) / tau) with (- (t1 - s) / tau + - (t2 - t1) / tau)
        by (field; exact Htau).
      rewrite Rpower_plus. lra.
    + assert (H1 : Spec.causal t1 s = false) by (apply causal_false_iff; lra).
      assert (H2 : Spec.causal t2 s = false) by (apply causal_false_iff; lra).
      rewrite H1, H2. lra.
Qed.

Lemma conductance_bounds (t g_max tau : R) (spks : list R) :
  0 <= g_max -> 0 < tau ->
  0 <= Spec.conductance_with (Rpower e) t spks g_max tau
    <= g_max * INR (List.length spks).
Proof.
  intros Hg Htau. induction spks as [|s spks IH].
  - rewrite conductance_nil. simpl. lra.
  - rewrite conductance_step.
    change (List.length (s :: spks)) with (S (List.length spks)). rewrite S_INR.
    destruct (Spec.causal t s) eqn:Hc.
    + apply causal_true_iff in Hc.
      pose proof (Rpower_e_pos (- (t - s) / tau)) as Hp.
      assert (Hq : Rpower e (- (t - s) / tau) <= 1).
      { apply Rpower_e_le_1. unfold Rdiv.
        assert (0 < / tau) by (apply Rinv_0_lt_compat; exact Htau). nra. }
      nra.
    + nra.
Qed.

End ConductanceFacts.

Module ConductanceExtras.
Import Synapse SynapseFacts ConductanceFacts.

(** X2: for [tau <> 0], a [g_max] of magnitude up to [max_gain] and
    spikes in range, the spikes later than [t] do not count: [g_syn]
    returns the same on the list with them removed, and [0.0] when every
    spike is later than [t]. *)
Theorem g_syn_ignores_future_spikes (t : R) (spks : list R) (g_max tau : R) :
  tau <> 0 -> Rabs g_max <= max_gain -> in_range t tau spks ->
  g_syn t spks g_max tau
  = g_syn t (filter (fun t_s => heaviside (t - t_s)) spks) g_max tau
  /\ (Forall (fun t_s => t < t_s) spks -> g_syn t spks g_max tau = Ok 0).
Proof.
  intros Htau _ Hr.
  rewrite !g_syn_sum by (try apply in_range_filter; assumption). split.
  - f_equal.
    rewrite (filter_ext _ (Spec.causal t)) by (intros s; apply heaviside_causal).
    symmetry. apply conductance_filter.
  - intros H. f_equal. apply conductance_future, H.
Qed.

(** At [t = 10] only the first spike of the notebook's list has arrived. *)
Lemma g_syn_ignores_future_spikes_witness :
  g_syn 10 [1.9; 22; 40] 50 5
  = g_syn 10 (filter (fun t_s => heaviside (10 - t_s)) [1.9; 22; 40]) 50 5
  /\ (Forall (fun t_s => 10 < t_s) [1.9; 22; 40] -> g_syn 10 [1.9; 22; 40] 50 5 = Ok 0).
Proof.
  apply (g_syn_ignores_future_spikes 10 [1.9; 22; 40] 50 5).
  - lra.
  - unfold max_gain. apply Rabs_le. lra.
  - unfold in_range, safe_exponent.
    repeat (apply Forall_cons; [lra|]). apply Forall_nil.
Defined.

(** X3: for [0 <= g_max <= max_gain], [tau > 0] and spikes in range, the
    conductance lies between 0 and [g_max] times the number of spikes. *)
Theorem g_syn_bounded (t : R) (spks : list R) (g_max tau : R) :
  0 <= g_max <= max_gain -> 0 < tau -> in_range t tau spks ->
  exists g, g_syn t spks g_max tau = Ok g
    /\ 0 <= g <= g_max * INR (List.length spks).
Proof.
  intros [Hg _] Htau Hr. eexists. split; [apply g_syn_sum; [lra|exact Hr]|].
  apply conductance_bounds; assumption.
Qed.

Lemma g_syn_bounded_witness :
  exists g, g_syn 40 [1.9; 22; 40] 50 5 = Ok g
    /\ 0 <= g <= 50 * INR (List.length [1.9; 22; 40]).
Proof.
  apply (g_syn_bounded 40 [1.9; 22; 40] 50 5).
  - unfold max_gain. lra.
  - lra.
  - unfold in_range, safe_exponent.
    repeat (apply Forall_cons; [lra|]). apply Forall_nil.
Defined.

(** X5: for [0 <= g_max <= max_gain], [tau > 0] and spikes in range at
    [t1], the conductance does not grow from [t1] to a later time [t2]
    when no spike falls in [(t1, t2]]. *)
Theorem g_syn_falls_between_spikes (t1 t2 : R) (spks : list R) (g_max tau : R) :
  0 <= g_max <= max_gain -> 0 < tau -> t1 <= t2 ->
  Forall (fun t_s => t_s <= t1 \/ t2 < t_s) spks ->
  in_range t1 tau spks ->
  exists g1 g2, g_syn t1 spks g_max tau = Ok g1
    /\ g_syn t2 spks g_max tau = Ok g2
    /\ 0 <= g2 <= g1.
Proof.
  intros [Hg _] Htau Hle H Hr. eexists; eexists.
  split; [apply g_syn_sum; [lra|exact Hr]|].
  split; [apply g_syn_sum; [lra|apply in_range_later with t1; assumption]|].
  pose proof (conductance_bounds t2 g_max tau spks Hg Htau) as [Hlo _].
  split; [exact Hlo|].
  rewrite (conductance_decay t1 t2) in * by (try assumption; lra).
  pose proof (conductance_bounds t1 g_max tau spks Hg Htau) as [Hpos _].
  assert (Hq : Rpower e (- (t2 - t1) / tau) <= 1).
  { apply Rpower_e_le_1. unfold Rdiv.
    assert (0 < / tau) by (apply Rinv_0_lt_compat; exact Htau). nra. }
  nra.
Qed.

(** Between the second and the third spike of the notebook's list. *)
Lemma g_syn_falls_between_spikes_witness :
  exists g1 g2, g_syn 25 [1.9; 22; 40] 50 5 = Ok g1
    /\ g_syn 30 [1.9; 22; 40] 50 5 = Ok g2
    /\ 0 <= g2 <= g1.
Proof.
  apply (g_syn_falls_between_spikes 25 30 [1.9; 22; 40] 50 5).
  - unfold max_gain. lra.
  - lra.
  - lra.
  - constructor; [left; lra|]. constructor; [left; lra|].
    constructor; [right; lra|]. constructor.
  - unfold in_range, safe_exponent.
    repeat (apply Forall_cons; [lra|]). apply Forall_nil.
Defined.

(** X7: moving the query time and every spike time by the same amount
    leaves the result of [g_syn] unchanged, exception included. *)
Theorem g_syn_time_shift (t d : R) (spks : list R) (g_max tau : R) :
  g_syn (t + d) (map (fun t_s => t_s + d) spks) g_max tau
  = g_syn t spks g_max tau.
Proof.
  rewrite !g_syn_elems, for_in_map. generalize 0 as total.
  induction spks as [|s spks IH]; intros total; simpl; [reflexivity|].
  replace (t + d - (s + d)) with (t - s) by lra.
  destruct (truediv (- (t - s)) tau) as [x|err]; simpl; [|reflexivity].
  destruct (float_pow e x) as [pw|err]; simpl; [apply IH|reflexivity].
Qed.

End ConductanceExtras.

(** ** The synaptic currents and the simulation loop *)

Module SynapseExtras.
Import Synapse SynapseFacts ConductanceFacts.

(** X8: with the same arguments [I_AMPA] and [I_GABA] return the same
    current; for [0 <= g_max <= max_gain], [tau > 0] and spikes in range
    it is zero at the reversal potential [E], not negative above it and
    not positive below it. *)
Theorem synaptic_current_follows_driving_force
  (t V_t : R) (spks : list R) (g_max tau E : R) :
  0 <= g_max <= max_gain -> 0 < tau -> in_range t tau spks ->
  exists I, I_AMPA t V_t spks g_max tau E = Ok I
    /\ I_GABA t V_t spks g_max tau E = Ok I
    /\ (V_t = E -> I = 0)
    /\ (E <= V_t -> 0 <= I)
    /\ (V_t <= E -> I <= 0).
Proof.
  intros [Hg _] Htau Hr. unfold I_AMPA, I_GABA.
  rewrite g_syn_sum by (try exact Hr; lra). simpl. eexists. split; [reflexivity|].
  split; [reflexivity|].
  pose proof (conductance_bounds t g_max tau spks Hg Htau) as [Hlo _].
  repeat split; intros H; [subst; lra| |]; nra.
Qed.

(** The two calls of the notebook's example cell share [t], [V_t] and the
    spike list. *)
Lemma synaptic_current_follows_driving_force_witness :
  exists I, I_AMPA 10 (-64.2) [1.9; 22; 40] 50 4 0 = Ok I
    /\ I_GABA 10 (-64.2) [1.9; 22; 40] 50 4 0 = Ok I
    /\ (-64.2 = 0 -> I = 0)
    /\ (0 <= -64.2 -> 0 <= I)
    /\ (-64.2 <= 0 -> I <= 0).
Proof.
  apply (synaptic_current_follows_driving_force 10 (-64.2) [1.9; 22; 40] 50 4 0).
  - unfold max_gain. lra.
  - lra.
  - unfold in_range, safe_exponent.
    repeat (apply Forall_cons; [lra|]). apply Forall_nil.
Defined.




End SynapseExtras.

(** ** The loops of [neuron.ipynb] *)

Module NeuronFacts.
Import Neuron NeuronCells.

(** One pass of the leak-only loop moves the voltage towards
    [V_rest + I_e*R_m] by the factor [1 - dt/(R_m*C_m)]. *)
Lemma leak_step_towards (Vr Rm Ie dt Cm V : R) :
  Rm <> 0 -> Cm <> 0 ->
  leak_step Vr Rm Ie dt Cm V
  = Ok (Vr + Ie * Rm + (V - (Vr + Ie * Rm)) * (1 - dt / (Rm * Cm))).
Proof.
  intros HR HC. unfold leak_step.
  rewrite (truediv_ok _ _ HR). simpl. rewrite (truediv_ok _ _ HC). simpl.
  f_equal. field. split; assumption.
Qed.

Lemma leak_loop_towards (Vr Rm Ie dt Cm : R) (n : nat) (V0 : R) :
  Rm <> 0 -> Cm <> 0 ->
  leak_loop Vr Rm Ie dt Cm n V0
  = Ok (Vr + Ie * Rm + (V0 - (Vr + Ie * Rm)) * (1 - dt / (Rm * Cm)) ^ n).
Proof.
  intros HR HC. induction n as [|n IH].
  - unfold leak_loop. simpl. f_equal. lra.
  - unfold leak_loop in *. rewrite for_in_range_S, IH. simpl.
    rewrite leak_step_towards by assumption. f_equal. lra.
Qed.

Lemma factor_range (Rm Cm dt : R) :
  0 < Rm -> 0 < Cm -> 0 <= dt <= Rm * Cm -> 0 <= 1 - dt / (Rm * Cm) <= 1.
Proof.
  intros HR HC [H0 H1].
  assert (Hp : 0 < Rm * Cm) by (apply Rmult_lt_0_compat; assumption).
  assert (Hi : 0 < / (Rm * Cm)) by (apply Rinv_0_lt_compat; exact Hp).
  assert (Hq : dt / (Rm * Cm) <= 1).
  { apply Rmult_le_reg_r with (Rm * Cm); [exact Hp|].
    unfold Rdiv. rewrite Rmult_assoc, Rinv_l by lra. lra. }
  assert (0 <= dt / (Rm * Cm)) by (unfold Rdiv; nra).
  lra.
Qed.

Lemma pow_range (q : R) (n : nat) : 0 <= q <= 1 -> 0 <= q ^ n <= 1.
Proof.
  intros [H0 H1]. split; [apply pow_le; exact H0|].
  rewrite <- (pow1 n). apply pow_incr. split; assumption.
Qed.

Lemma factor_unstable (Rm Cm dt : R) :
  0 < Rm -> 0 < Cm -> 2 * (Rm * Cm) < dt -> 1 - dt / (Rm * Cm) < -1.
Proof.
  intros HR HC H.
  assert (Hp : 0 < Rm * Cm) by (apply Rmult_lt_0_compat; assumption).
  assert (Hq : 2 < dt / (Rm * Cm)).
  { apply Rmult_lt_reg_r with (Rm * Cm); [exact Hp|].
    unfold Rdiv. rewrite Rmult_assoc, Rinv_l by lra. lra. }
  lra.
Qed.

Lemma stale_loop_linear (n : nat) (dV V0 : R) :
  stale_loop n dV V0 = V0 + INR n * dV.
Proof.
  unfold stale_loop. induction n as [|n IH].
  - simpl. lra.
  - rewrite range_S, fold_left_app, IH, S_INR. simpl. lra.
Qed.

End NeuronFacts.

Module NeuronExtras.
Import Neuron NeuronCells NeuronFacts.

(** X11: with a constant external current the leak-only loop approaches
    [V_rest + I_e*R_m] geometrically: after [n] passes the distance to it
    is the initial distance times [(1 - dt/(R_m*C_m))^n]. *)
Theorem leak_loop_geometric (V_rest R_m I_e dt C_m : R) (n : nat) (V0 : R) :
  R_m <> 0 -> C_m <> 0 ->
  exists V, leak_loop V_rest R_m I_e dt C_m n V0 = Ok V
    /\ V - (V_rest + I_e * R_m)
       = (V0 - (V_rest + I_e * R_m)) * (1 - dt / (R_m * C_m)) ^ n.
Proof.
  intros HR HC. eexists. split; [apply leak_loop_towards; assumption|]. lra.
Qed.

(** The second half of the injected-current run: 0.05 nA into 100 MOhm. *)
Lemma leak_loop_geometric_witness :
  exists V, leak_loop (-65) 100 0.05 0.5 1 10 (-65) = Ok V
    /\ V - (-65 + 0.05 * 100)
       = (-65 - (-65 + 0.05 * 100)) * (1 - 0.5 / (100 * 1)) ^ 10.
Proof.
  apply (leak_loop_geometric (-65) 100 0.05 0.5 1 10 (-65)); lra.
Defined.

(** X12: for [0 <= dt <= R_m*C_m] the leak-only loop never overshoots: the
    voltage after any number of passes lies between the initial voltage
    and [V_rest + I_e*R_m]. *)
Theorem leak_loop_no_overshoot (V_rest R_m I_e dt C_m : R) (n : nat) (V0 : R) :
  0 < R_m -> 0 < C_m -> 0 <= dt <= R_m * C_m ->
  exists V, leak_loop V_rest R_m I_e dt C_m n V0 = Ok V
    /\ (V_rest + I_e * R_m <= V0 -> V_rest + I_e * R_m <= V <= V0)
    /\ (V0 <= V_rest + I_e * R_m -> V0 <= V <= V_rest + I_e * R_m).
Proof.
  intros HR HC Hdt. eexists. split; [apply leak_loop_towards; lra|].
  pose proof (pow_range _ n (factor_range R_m C_m dt HR HC Hdt)) as Hq.
  set (q := (1 - dt / (R_m * C_m)) ^ n) in *.
  split; intros H; nra.
Qed.

Lemma leak_loop_no_overshoot_witness :
  exists V, leak_loop (-65) 100 0 0.5 1 4060 (-63) = Ok V
    /\ (-65 + 0 * 100 <= -63 -> -65 + 0 * 100 <= V <= -63)
    /\ (-63 <= -65 + 0 * 100 -> -63 <= V <= -65 + 0 * 100).
Proof.
  apply (leak_loop_no_overshoot (-65) 100 0 0.5 1 4060 (-63)); lra.
Defined.

(** X13: for [dt > 2*R_m*C_m] the leak-only loop is unstable: unless it
    starts exactly at [V_rest + I_e*R_m], every pass takes the voltage
    farther from it. *)
Theorem leak_loop_unstable (V_rest R_m I_e dt C_m : R) (n : nat) (V0 : R) :
  0 < R_m -> 0 < C_m -> 2 * (R_m * C_m) < dt -> V0 <> V_rest + I_e * R_m ->
  exists V V', leak_loop V_rest R_m I_e dt C_m n V0 = Ok V
    /\ leak_loop V_rest R_m I_e dt C_m (S n) V0 = Ok V'
    /\ Rabs (V - (V_rest + I_e * R_m)) < Rabs (V' - (V_rest + I_e * R_m)).
Proof.
  intros HR HC Hdt HV. eexists; eexists.
  split; [apply leak_loop_towards; lra|]. split; [apply leak_loop_towards; lra|].
  pose proof (factor_unstable R_m C_m dt HR HC Hdt) as Hq.
  set (q := 1 - dt / (R_m * C_m)) in *.
  set (Vinf := V_rest + I_e * R_m) in *.
  replace (Vinf + (V0 - Vinf) * q ^ n - Vinf) with ((V0 - Vinf) * q ^ n) by lra.
  replace (Vinf + (V0 - Vinf) * q ^ S n - Vinf) with ((V0 - Vinf) * q ^ n * q)
    by (simpl; lra).
  rewrite (Rabs_mult _ q).
  assert (Hd : (V0 - Vinf) * q ^ n <> 0).
  { apply Rmult_integral_contrapositive. split; [lra|].
    apply pow_nonzero. lra. }
  apply Rabs_pos_lt in Hd.
  assert (1 < Rabs q) by (rewrite Rabs_left; lra).
  nra.
Qed.

Lemma leak_loop_unstable_witness :
  exists V V', leak_loop (-65) 100 0 250 1 3 (-63) = Ok V
    /\ leak_loop (-65) 100 0 250 1 4 (-63) = Ok V'
    /\ Rabs (V - (-65 + 0 * 100)) < Rabs (V' - (-65 + 0 * 100)).
Proof.
  apply (leak_loop_unstable (-65) 100 0 250 1 3 (-63)); lra.
Defined.

(** X14: the first simulation cell computes [dV] once, so its loop moves
    the voltage by the same amount in every pass; without external
    current and from above [V_rest], it ends below [V_rest] as soon as
    [num_iter * dt] exceeds [R_m*C_m]. *)
Theorem stale_cell_is_linear (V_rest R_m I_e dt C_m : R) (n : nat) (V0 : R) :
  0 < R_m -> 0 < C_m ->
  exists V, stale_cell V_rest R_m I_e dt C_m n V0 = Ok V
    /\ V = V0 + INR n * ((- ((V0 - V_rest) / R_m) + I_e) * dt / C_m)
    /\ (I_e = 0 -> V_rest < V0 -> R_m * C_m < INR n * dt -> V < V_rest).
Proof.
  intros HR HC. unfold stale_cell, I_leak.
  rewrite truediv_ok by lra. simpl. rewrite truediv_ok by lra. simpl.
  eexists. split; [reflexivity|]. split; [apply stale_loop_linear|].
  intros -> HV Hn. rewrite stale_loop_linear.
  replace (V0 + INR n * ((- ((V0 - V_rest) / R_m) + 0) * dt / C_m))
    with (V_rest + (V0 - V_rest) * (1 - INR n * dt / (R_m * C_m)))
    by (field; split; lra).
  assert (Hp : 0 < R_m * C_m) by (apply Rmult_lt_0_compat; assumption).
  assert (Hq : 1 < INR n * dt / (R_m * C_m)).
  { apply Rmult_lt_reg_r with (R_m * C_m); [exact Hp|].
    unfold Rdiv. rewrite Rmult_assoc, Rinv_l by lra. lra. }
  nra.
Qed.

(** The ten passes of the notebook, with [dt = 0.01]. *)
Lemma stale_cell_is_linear_witness :
  exists V, stale_cell (-65) 100 0 0.01 1 10 (-63) = Ok V
    /\ V = -63 + INR 10 * ((- ((-63 - -65) / 100) + 0) * 0.01 / 1)
    /\ (0 = 0 -> -65 < -63 -> 100 * 1 < INR 10 * 0.01 -> V < -65).
Proof.
  apply (stale_cell_is_linear (-65) 100 0 0.01 1 10 (-63)); lra.
Defined.

End NeuronExtras.

(** ** The injected-current cell of [neuron.ipynb] *)

Module InjectionFacts.
Import NeuronCells.

Lemma bind_Ok {X Y : Type} (a : X) (k : X -> result Y) : bind (Ok a) k = k a.
Proof. reflexivity. Qed.

Lemma inject_body_ok (V_rest R_m C_m I_e dt I_i1 I_i2 : R)
  (i : nat) (_v : list R) (V_t : R) :
  R_m <> 0 -> C_m <> 0 ->
  inject_body V_rest R_m C_m I_e dt I_i1 I_i2 i (_v, V_t)
  = Ok (_v ++ [V_t],
        V_t + (- ((V_t - V_rest) / R_m) + gated I_e I_i1 I_i2 i) * dt / C_m).
Proof.
  intros HR HC. unfold inject_body, gated.
  rewrite (truediv_ok _ _ HR). simpl.
  rewrite (truediv_ok _ _ HC). reflexivity.
Qed.

Lemma inject_loop_S (V_rest R_m C_m I_e dt I_i1 I_i2 : R) (n : nat) (V0 : R) :
  inject_loop V_rest R_m C_m I_e dt I_i1 I_i2 (S n) V0
  = s <- inject_loop V_rest R_m C_m I_e dt I_i1 I_i2 n V0 ;;
    inject_body V_rest R_m C_m I_e dt I_i1 I_i2 n s.
Proof. unfold inject_loop. apply for_in_range_S. Qed.

(** A pass takes a voltage between [V_rest] and [V_rest + I_e*R_m] to a
    voltage between them. *)
Lemma inject_step_range (V_rest R_m C_m I_e dt cur V : R) :
  0 < R_m -> 0 < C_m -> 0 <= dt <= R_m * C_m -> 0 <= cur <= I_e ->
  V_rest <= V <= V_rest + I_e * R_m ->
  V_rest <= V + (- ((V - V_rest) / R_m) + cur) * dt / C_m <= V_rest + I_e * R_m.
Proof.
  intros HR HC Hdt Hcur HV.
  pose proof (NeuronFacts.factor_range R_m C_m dt HR HC Hdt) as Hq.
  replace (V + (- ((V - V_rest) / R_m) + cur) * dt / C_m)
    with (V_rest + (V - V_rest) * (1 - dt / (R_m * C_m))
          + cur * R_m * (1 - (1 - dt / (R_m * C_m))))
    by (field; split; lra).
  set (q := 1 - dt / (R_m * C_m)) in *.
  assert (0 <= cur * R_m <= I_e * R_m) by nra.
  nra.
Qed.

Lemma gated_range (I_e I_i1 I_i2 : R) (i : nat) :
  0 <= I_e -> 0 <= gated I_e I_i1 I_i2 i <= I_e.
Proof. intros H. unfold gated. destruct (in_window I_i1 I_i2 i); lra. Qed.

Lemma gated_before (I_e I_i1 I_i2 : R) (i : nat) :
  INR i <= I_i1 -> gated I_e I_i1 I_i2 i = 0.
Proof.
  intros H. unfold gated, in_window.
  destruct (Rlt_dec I_i1 (INR i)); [exfalso; lra|reflexivity].
Qed.

Lemma gated_after (I_e I_i1 I_i2 : R) (i : nat) :
  I_i2 <= INR i -> gated I_e I_i1 I_i2 i = 0.
Proof.
  intros H. unfold gated, in_window.
  destruct (Rlt_dec I_i1 (INR i)); [|reflexivity].
  destruct (Rlt_dec (INR i) I_i2); [exfalso; lra|reflexivity].
Qed.

Lemma gated_inside (I_e I_i1 I_i2 : R) (i : nat) :
  I_i1 < INR i < I_i2 -> gated I_e I_i1 I_i2 i = I_e.
Proof.
  intros [H1 H2]. unfold gated, in_window.
  destruct (Rlt_dec I_i1 (INR i)); [|exfalso; lra].
  destruct (Rlt_dec (INR i) I_i2); [reflexivity|exfalso; lra].
Qed.

End InjectionFacts.

Module InjectionExtras.
Import NeuronCells InjectionFacts.

(** X15: for [0 <= dt <= R_m*C_m] and [I_e >= 0], a run of the
    injected-current loop that starts between [V_rest] and
    [V_rest + I_e*R_m] stays there: the trace has one entry per pass,
    begins with the initial voltage, and every entry and the final
    voltage lie in that range. *)
Theorem inject_loop_stays_in_range
  (V_rest R_m C_m I_e dt I_i1 I_i2 : R) (num_iter : nat) (V0 : R) :
  0 < R_m -> 0 < C_m -> 0 <= dt <= R_m * C_m -> 0 <= I_e ->
  V_rest <= V0 <= V_rest + I_e * R_m ->
  exists _v V_t,
    inject_loop V_rest R_m C_m I_e dt I_i1 I_i2 num_iter V0 = Ok (_v, V_t)
    /\ List.length _v = num_iter
    /\ hd_error (_v ++ [V_t]) = Some V0
    /\ Forall (fun V => V_rest <= V <= V_rest + I_e * R_m) (_v ++ [V_t]).
Proof.
  intros HR HC Hdt HI HV.
  assert (HRn : R_m <> 0) by lra. assert (HCn : C_m <> 0) by lra.
  induction num_iter as [|n (_v & V_t & Hrun & Hlen & Hhd & Hall)].
  - exists [], V0. repeat split. constructor; [exact HV|constructor].
  - rewrite inject_loop_S, Hrun, bind_Ok.
    rewrite inject_body_ok by assumption.
    eexists; eexists. split; [reflexivity|]. split; [|split].
    + rewrite length_app, Hlen. simpl. lia.
    + destruct (_v ++ [V_t]) as [|x l]; [discriminate|exact Hhd].
    + apply Forall_app. split; [exact Hall|].
      constructor; [|constructor].
      apply inject_step_range; try assumption.
      * apply gated_range, HI.
      * apply Forall_app in Hall. destruct Hall as [_ Hlast].
        inversion Hlast; assumption.
Qed.

(** The notebook's run: 0.05 nA between passes 1000 and 2000. *)
Lemma inject_loop_stays_in_range_witness :
  exists _v V_t,
    inject_loop (-65) 100 1 0.05 0.5 1000 2000 5000 (-65) = Ok (_v, V_t)
    /\ List.length _v = 5000%nat
    /\ hd_error (_v ++ [V_t]) = Some (-65)
    /\ Forall (fun V => -65 <= V <= -65 + 0.05 * 100) (_v ++ [V_t]).
Proof.
  apply (inject_loop_stays_in_range (-65) 100 1 0.05 0.5 1000 2000 5000 (-65)); lra.
Defined.

(** X16: started at [V_rest], the injected-current cell leaves the voltage
    exactly at [V_rest] up to the first pass whose index exceeds
    [start/dt]: if all of the first [n] passes have indices up to
    [start/dt], they record [n] times [V_rest] and end at [V_rest]. *)
Theorem inject_cell_rests_before_start
  (V_rest R_m C_m I_e dt start stop : R) (n : nat) :
  R_m <> 0 -> C_m <> 0 -> dt <> 0 ->
  (forall i, (i < n)%nat -> INR i <= start / dt) ->
  inject_cell V_rest R_m C_m I_e dt start stop n = Ok (repeat V_rest n, V_rest).
Proof.
  intros HR HC Hdt. unfold inject_cell.
  rewrite !truediv_ok by exact Hdt. simpl.
  induction n as [|n IH]; intros Hn; [reflexivity|].
  rewrite inject_loop_S.
  rewrite IH by (intros i Hi; apply Hn; lia). rewrite bind_Ok.
  rewrite inject_body_ok by assumption.
  rewrite gated_before by (apply Hn; lia).
  f_equal. f_equal.
  - simpl. symmetry. apply repeat_cons.
  - field. split; assumption.
Qed.

(** Three passes with [start = 1] and [dt = 0.5]: the indices 0, 1, 2 are
    not above [start/dt = 2]. *)
Lemma inject_cell_rests_before_start_witness :
  inject_cell (-65) 100 1 0.05 0.5 1 1000 3 = Ok (repeat (-65) 3, -65).
Proof.
  apply (inject_cell_rests_before_start (-65) 100 1 0.05 0.5 1 1000 3); try lra.
  intros i Hi. apply le_S_n, le_INR in Hi.
  replace (INR 2) with 2 in Hi by (simpl; lra). lra.
Defined.

End InjectionExtras.

(** ** The reversal potentials *)

Module PotentialFacts.
Import Ions IonsFacts.

Lemma ln_quotient_swap (a b : R) : 0 < a -> 0 < b -> ln (b / a) = - ln (a / b).
Proof.
  intros Ha Hb. rewrite <- ln_Rinv by (apply Rdiv_lt_0_compat; assumption).
  f_equal. field. split; lra.
Qed.

Lemma ln_quotient_pos (a b : R) : 0 < a -> 0 < b -> b < a -> 0 < ln (a / b).
Proof.
  intros Ha Hb H. rewrite <- ln_1. apply ln_increasing; [lra|].
  apply Rmult_lt_reg_r with b; [exact Hb|].
  unfold Rdiv. rewrite Rmult_assoc, Rinv_l by lra. lra.
Qed.

Lemma ln_quotient_sign (a b : R) :
  0 < a -> 0 < b ->
  (0 < ln (a / b) <-> b < a) /\ (ln (a / b) < 0 <-> a < b).
Proof.
  intros Ha Hb.
  destruct (Rtotal_order a b) as [Hlt | [-> | Hgt]].
  - pose proof (ln_quotient_pos b a Hb Ha Hlt) as H.
    rewrite (ln_quotient_swap a b Ha Hb) in H. split; split; intros; lra.
  - replace (b / b) with 1 by (field; lra). rewrite ln_1. split; split; intros; lra.
  - pose proof (ln_quotient_pos a b Ha Hb Hgt). split; split; intros; lra.
Qed.

Lemma nernst_ind_positive (C_out C_in : R) (sign : Z) :
  0 < C_out -> 0 < C_in -> sign <> 0%Z ->
  nernst_ind C_out C_in sign
  = Ok (Fin (RTF / IZR sign * ln (C_out / C_in) * 1000)).
Proof.
  intros Ho Hi Hs. unfold nernst_ind.
  rewrite truediv_ok by (intros H; apply eq_IZR_R0 in H; contradiction).
  simpl. rewrite truediv_ok by lra. simpl.
  rewrite np_log_pos by (apply Rdiv_lt_0_compat; assumption). reflexivity.
Qed.

Lemma RTF_positive : 0 < RTF.
Proof. unfold RTF, R_gas, T, F. lra. Qed.

Lemma zip4_shortest_zero {X Y Z' W : Type}
  (a : list X) (b : list Y) (c : list Z') (d : list W) :
  Spec.shortest a b c d = 0%nat -> zip4 a b c d = [].
Proof.
  intros H. rewrite zip4_firstn, H. reflexivity.
Qed.

End PotentialFacts.

Module PotentialExtras.
Import Ions IonsFacts PotentialFacts.

(** X17: on positive concentrations and a non-zero valence, changing the
    sign of the valence changes the sign of the Nernst potential and
    nothing else, and equal concentrations give 0. *)
Theorem nernst_ind_valence_flip (C_out C_in : R) (sign : Z) :
  0 < C_out -> 0 < C_in -> sign <> 0%Z ->
  exists v, nernst_ind C_out C_in sign = Ok (Fin v)
    /\ nernst_ind C_out C_in (- sign) = Ok (Fin (- v))
    /\ (C_out = C_in -> v = 0).
Proof.
  intros Ho Hi Hs.
  assert (Hz : IZR sign <> 0) by (intros H; apply eq_IZR_R0 in H; contradiction).
  eexists. split; [apply nernst_ind_positive; assumption|].
  rewrite !nernst_ind_positive by (try assumption; lia).
  split.
  - f_equal. f_equal. rewrite opp_IZR. field. exact Hz.
  - intros ->. replace (C_in / C_in) with 1 by (field; lra). rewrite ln_1. lra.
Qed.

(** Chloride of the notebook, as in the docstring of [nernst_ind], and
    the same concentrations for a cation. *)
Lemma nernst_ind_valence_flip_witness :
  exists v, nernst_ind 135 5 (-1) = Ok (Fin v)
    /\ nernst_ind 135 5 (- -1) = Ok (Fin (- v))
    /\ (135 = 5 -> v = 0).
Proof.
  apply (nernst_ind_valence_flip 135 5 (-1)%Z); [lra | lra | discriminate].
Defined.

(** X18: on positive concentrations the Nernst potential of a cation is
    positive exactly when the ion is more concentrated outside, and that
    of an anion exactly when it is more concentrated inside. *)
Theorem nernst_ind_sign (C_out C_in : R) (sign : Z) :
  0 < C_out -> 0 < C_in -> sign <> 0%Z ->
  exists v, nernst_ind C_out C_in sign = Ok (Fin v)
    /\ ((0 < sign)%Z -> (0 < v <-> C_in < C_out) /\ (v < 0 <-> C_out < C_in))
    /\ ((sign < 0)%Z -> (0 < v <-> C_out < C_in) /\ (v < 0 <-> C_in < C_out)).
Proof.
  intros Ho Hi Hs. eexists. split; [apply nernst_ind_positive; assumption|].
  pose proof RTF_positive as HR.
  destruct (ln_quotient_sign C_out C_in Ho Hi) as [Hpos Hneg].
  set (l := ln (C_out / C_in)) in *.
  split; intros Hz.
  - assert (Hc : 0 < RTF / IZR sign).
    { apply Rdiv_lt_0_compat; [exact HR|]. apply IZR_lt. exact Hz. }
    set (c := RTF / IZR sign) in *.
    split; split; intros H.
    + apply Hpos. nra.
    + apply Hpos in H. nra.
    + apply Hneg. nra.
    + apply Hneg in H. nra.
  - assert (Hc : RTF / IZR sign < 0).
    { apply IZR_lt in Hz. unfold Rdiv.
      assert (/ IZR sign < 0) by (apply Rinv_lt_0_compat; exact Hz). nra. }
    set (c := RTF / IZR sign) in *.
    split; split; intros H.
    + apply Hneg. nra.
    + apply Hneg in H. nra.
    + apply Hpos. nra.
    + apply Hpos in H. nra.
Qed.

(** Potassium of the notebook: more concentrated inside. *)
Lemma nernst_ind_sign_witness :
  exists v, nernst_ind 5 140 1 = Ok (Fin v)
    /\ ((0 < 1)%Z -> (0 < v <-> 140 < 5) /\ (v < 0 <-> 5 < 140))
    /\ ((1 < 0)%Z -> (0 < v <-> 5 < 140) /\ (v < 0 <-> 140 < 5)).
Proof.
  apply (nernst_ind_sign 5 140 1%Z); [lra | lra | discriminate].
Defined.

(** X22: when one of the four sequences is empty, [ghk] divides 0 by 0
    and raises [ZeroDivisionError]. *)
Theorem ghk_empty_raises (C_outs C_ins ps : list R) (zs : list Z) :
  Spec.shortest C_outs C_ins ps zs = 0%nat ->
  ghk C_outs C_ins ps zs = Raise ZeroDivisionError.
Proof.
  intros H. unfold ghk.
  rewrite zip4_shortest_zero by (rewrite shortest_comm12; exact H).
  simpl. rewrite truediv_zero. reflexivity.
Qed.

Lemma ghk_empty_raises_witness :
  ghk [] [150; 15; 10] [pK; pNa; pCl] [1; 1; -1]%Z = Raise ZeroDivisionError.
Proof.
  apply (ghk_empty_raises [] [150; 15; 10] [pK; pNa; pCl] [1; 1; -1]%Z). reflexivity.
Defined.

End PotentialExtras.

(** ** The ion tables and [nernst] *)

Module TableFacts.
Import Ions IonTables.

Lemma getitem_missing {V : Type} (d : dict V) (key : string) :
  ~ In key (map fst d) -> getitem d key = KeyError key.
Proof.
  induction d as [|[k v] d IH]; intros H; simpl; [reflexivity|].
  destruct (String.eqb_spec k key) as [->|_].
  - exfalso. apply H. left. reflexivity.
  - apply IH. intros Hin. apply H. right. exact Hin.
Qed.

(** A lookup returns a value or raises the [KeyError] of its own key. *)
Lemma getitem_cases {V : Type} (d : dict V) (key : string) :
  getitem d key = KeyError key \/ exists v, getitem d key = Returns v.
Proof.
  induction d as [|[k v] d IH]; simpl; [left; reflexivity|].
  destruct (String.eqb k key); [right; eauto|exact IH].
Qed.

Lemma valence_keys : map fst valence = ion_names.
Proof. reflexivity. Qed.

End TableFacts.

Module TableExtras.
Import Ions IonTables TableFacts PotentialFacts.

(** X24: [nernst] raises [KeyError] of the ion when the concentration
    table lacks it, and for an ion outside the four of the global valence
    table no table passed as [conc] makes it return: it ends in the
    [KeyError] of the ion or of ['o'] or ['i']. *)
Theorem nernst_key_errors (ion : string) (conc : dict (dict R)) :
  (~ In ion (map fst conc) -> nernst ion (Some conc) = KeyError ion)
  /\ (~ In ion ion_names -> nernst ion None = KeyError ion)
  /\ (~ In ion ion_names ->
      exists key, nernst ion (Some conc) = KeyError key
        /\ (key = ion \/ key = "o"%string \/ key = "i"%string)).
Proof.
  split; [|split].
  - intros H. unfold nernst. rewrite (getitem_missing conc ion H). reflexivity.
  - intros H. unfold nernst. rewrite (getitem_missing concentrations ion H).
    reflexivity.
  - intros H.
    assert (Hv : getitem valence ion = KeyError ion)
      by (apply getitem_missing; rewrite valence_keys; exact H).
    unfold nernst. rewrite Hv.
    destruct (getitem_cases conc ion) as [-> | [entry ->]];
      cbn [and_then]; [eauto|].
    destruct (getitem_cases entry "o"%string) as [-> | [C_out ->]];
      cbn [and_then]; [eauto|].
    destruct (getitem_cases entry "i"%string) as [-> | [C_in ->]];
      cbn [and_then]; eauto 6.
Qed.

(** X25: on each of the four ions of the notebook's tables [nernst]
    returns a finite potential, the one [nernst_ind] gives on the ion's
    entries: negative for potassium, chloride and bicarbonate, positive
    for sodium. *)
Theorem nernst_on_notebook_tables :
  Forall (fun ion => exists v, nernst ion None = Returns (Fin v)) ion_names
  /\ nernst "K"%string None = of_result (nernst_ind 5 140 1)
  /\ nernst "Na"%string None = of_result (nernst_ind 125 15 1)
  /\ nernst "Cl"%string None = of_result (nernst_ind 135 5 (-1))
  /\ nernst "HCO3"%string None = of_result (nernst_ind 25 10 (-1))
  /\ (exists vK vNa vCl vHCO3,
        nernst "K"%string None = Returns (Fin vK)
        /\ nernst "Na"%string None = Returns (Fin vNa)
        /\ nernst "Cl"%string None = Returns (Fin vCl)
        /\ nernst "HCO3"%string None = Returns (Fin vHCO3)
        /\ vK < 0 /\ 0 < vNa /\ vCl < 0 /\ vHCO3 < 0).
Proof.
  assert (HK : nernst "K"%string None = of_result (nernst_ind 5 140 1))
    by reflexivity.
  assert (HNa : nernst "Na"%string None = of_result (nernst_ind 125 15 1))
    by reflexivity.
  assert (HCl : nernst "Cl"%string None = of_result (nernst_ind 135 5 (-1)))
    by reflexivity.
  assert (HH : nernst "HCO3"%string None = of_result (nernst_ind 25 10 (-1)))
    by reflexivity.
  rewrite nernst_ind_positive in HK by (try lra; discriminate).
  rewrite nernst_ind_positive in HNa by (try lra; discriminate).
  rewrite nernst_ind_positive in HCl by (try lra; discriminate).
  rewrite nernst_ind_positive in HH by (try lra; discriminate).
  split; [|split; [|split; [|split; [|split]]]].
  - repeat (constructor; [eexists; eassumption|]). constructor.
  - rewrite HK, nernst_ind_positive by (try lra; discriminate). reflexivity.
  - rewrite HNa, nernst_ind_positive by (try lra; discriminate). reflexivity.
  - rewrite HCl, nernst_ind_positive by (try lra; discriminate). reflexivity.
  - rewrite HH, nernst_ind_positive by (try lra; discriminate). reflexivity.
  - do 4 eexists.
    split; [exact HK|]. split; [exact HNa|]. split; [exact HCl|].
    split; [exact HH|].
    pose proof RTF_positive as HR.
    destruct (ln_quotient_sign 5 140) as [_ H1]; try lra.
    destruct (ln_quotient_sign 125 15) as [H2 _]; try lra.
    destruct (ln_quotient_sign 135 5) as [H3 _]; try lra.
    destruct (ln_quotient_sign 25 10) as [H4 _]; try lra.
    assert (L1 : ln (5 / 140) < 0) by (apply H1; lra).
    assert (L2 : 0 < ln (125 / 15)) by (apply H2; lra).
    assert (L3 : 0 < ln (135 / 5)) by (apply H3; lra).
    assert (L4 : 0 < ln (25 / 10)) by (apply H4; lra).
    replace (RTF / 1) with RTF by lra.
    replace (RTF / -1) with (- RTF) by lra.
    repeat split; nra.
Qed.

End TableExtras.

(** ** The search for the chloride concentration *)

Module DrivingFacts.
Import Ions IonsFacts DrivingForce ExpBound ExpBoundFacts.

(** The GABA-A potential of the cell for [Cl_i = c]. *)
Lemma ghk_chloride (c : nat) :
  ghk [135; 25] [INR c; 10] [pcl; phco3] [-1; -1]%Z
  = Ok (Fin (RTF * ln ((0.8 * INR c + 2) / 113) * 1000)).
Proof.
  pose proof (pos_INR c) as Hc.
  rewrite ghk_ok by (simpl; repeat constructor).
  assert (Hn : Spec.numerator [135; 25] [INR c; 10] [pcl; phco3] [-1; -1]%Z
               = 0.8 * INR c + 2).
  { unfold Spec.numerator, Spec.Rsum, pcl, phco3. simpl. lra. }
  assert (Hd : Spec.denominator [135; 25] [INR c; 10] [pcl; phco3] [-1; -1]%Z = 113).
  { unfold Spec.denominator, Spec.Rsum, pcl, phco3. simpl. lra. }
  rewrite Hn, Hd, truediv_ok by lra. simpl.
  rewrite np_log_pos; [reflexivity|].
  apply Rdiv_lt_0_compat; lra.
Qed.

Lemma ln_monotone (x y : R) : 0 < x -> x <= y -> ln x <= ln y.
Proof.
  intros Hx [Hlt | ->]; [left; apply ln_increasing; assumption|right; reflexivity].
Qed.

Lemma ln_at_9 : ln (9.2 / 113) <= -2.5.
Proof.
  assert (H : ln_le 30 (-25) 10 92 1130 = true) by (vm_compute; reflexivity).
  apply ln_le_sound in H.
  replace (9.2 / 113) with (92 / 1130) by lra. lra.
Qed.

Lemma ln_at_10 : -2.4249 <= ln (10 / 113) <= -2.4247.
Proof.
  assert (Hlo : ln_ge 30 (-24249) 10000 10 113 = true) by (vm_compute; reflexivity).
  assert (Hhi : ln_le 30 (-24247) 10000 10 113 = true) by (vm_compute; reflexivity).
  apply ln_ge_sound in Hlo. apply ln_le_sound in Hhi. lra.
Qed.

(** Up to [Cl_i = 9] the potential is below [Vm = -65]. *)
Lemma potential_low (c : nat) :
  (c <= 9)%nat -> RTF * ln ((0.8 * INR c + 2) / 113) * 1000 <= -65.
Proof.
  intros Hc. apply le_INR in Hc.
  replace (INR 9) with 9 in Hc by (simpl; lra).
  pose proof (pos_INR c) as H0.
  assert (Hl : ln ((0.8 * INR c + 2) / 113) <= ln (9.2 / 113)).
  { apply ln_monotone; [apply Rdiv_lt_0_compat; lra|].
    unfold Rdiv. apply Rmult_le_compat_r; lra. }
  pose proof ln_at_9. unfold RTF, R_gas, T, F. lra.
Qed.

Lemma potential_at_10 :
  -0.18 < -65 - RTF * ln ((0.8 * INR 10 + 2) / 113) * 1000 < -0.17.
Proof.
  replace ((0.8 * INR 10 + 2) / 113) with (10 / 113) by (simpl; lra).
  pose proof ln_at_10 as [Hlo Hhi]. unfold RTF, R_gas, T, F. lra.
Qed.

Lemma negative_Fin (y : R) : negative (Fin y) = true <-> y < 0.
Proof.
  simpl. destruct (Rlt_dec y 0); split; intros H; try discriminate;
    try reflexivity; try assumption; contradiction.
Qed.

Lemma negative_Fin_false (y : R) : 0 <= y -> negative (Fin y) = false.
Proof.
  intros H. simpl. destruct (Rlt_dec y 0); [exfalso; lra|reflexivity].
Qed.

Lemma search_cell_S (n : nat) :
  search_cell (S n)
  = s <- search_cell n ;; search_body (-65) [135; 25] [-1; -1]%Z n s.
Proof. unfold search_cell. apply for_in_range_S. Qed.

(** One pass on a state, once the potential of [Cl_i] is known. *)
Lemma search_body_ok (c : nat) (s : search) :
  search_body (-65) [135; 25] [-1; -1]%Z c s
  = let Em := Fin (RTF * ln ((0.8 * INR c + 2) / 113) * 1000) in
    if negative (rsub (-65) Em) && negb (check s)
    then Ok (Search (Em_list s ++ [Em]) (driv_list s ++ [rsub (-65) Em]) true
                    (printed s ++ [(rsub (-65) Em, c)]))
    else Ok (Search (Em_list s ++ [Em]) (driv_list s ++ [rsub (-65) Em])
                    (check s) (printed s)).
Proof.
  unfold search_body. rewrite ghk_chloride. reflexivity.
Qed.

End DrivingFacts.

Module DrivingExtras.
Import Ions DrivingForce DrivingFacts.

(** X26: the search over [Cl_i = 0, 1, ..., n-1] never raises and records
    one potential and one driving force per pass; it prints nothing while
    [n <= 10], and from [n = 11] on exactly one line, for [Cl_i = 10],
    with a driving force between -0.18 and -0.17 mV. *)
Theorem search_cell_finds_10 (n : nat) :
  exists s, search_cell n = Ok s
    /\ List.length (Em_list s) = n
    /\ List.length (driv_list s) = n
    /\ ((n <= 10)%nat -> check s = false /\ printed s = [])
    /\ ((10 < n)%nat ->
        check s = true
        /\ exists d, printed s = [(Fin d, 10%nat)] /\ -0.18 < d < -0.17).
Proof.
  induction n as [|n (s & Hrun & HEm & Hdr & Hlow & Hhigh)].
  - exists (Search [] [] false []).
    split; [reflexivity|]. split; [reflexivity|]. split; [reflexivity|].
    split; [intros _; split; reflexivity|intros Hgt; lia].
  - rewrite search_cell_S, Hrun, InjectionFacts.bind_Ok, search_body_ok.
    cbv zeta. unfold rsub.
    destruct (Nat.le_gt_cases n 9) as [H9 | H9].
    + (* passes 0 to 9: the driving force is not negative *)
      destruct (Hlow ltac:(lia)) as [Hc Hp].
      rewrite negative_Fin_false by (pose proof (potential_low n H9); lra).
      simpl. eexists. split; [reflexivity|]. simpl.
      rewrite !length_app, HEm, Hdr. simpl.
      repeat split; try lia; try assumption.
    + destruct (Nat.eq_dec n 10) as [-> | Hne].
      * (* pass 10: the first negative driving force *)
        destruct (Hlow ltac:(lia)) as [Hc Hp].
        pose proof potential_at_10 as Hd.
        assert (Hneg : negative
           (Fin (-65 - RTF * ln ((0.8 * INR 10 + 2) / 113) * 1000)) = true)
          by (apply negative_Fin; lra).
        rewrite Hneg, Hc. simpl andb. cbv iota.
        eexists. split; [reflexivity|]. simpl.
        rewrite !length_app, HEm, Hdr, Hp. simpl.
        repeat split; try lia.
        eexists. split; [reflexivity|]. exact Hd.
      * (* later passes: [check] is already set *)
        destruct (Hhigh ltac:(lia)) as [Hc Hp].
        rewrite Hc, andb_false_r.
        eexists. split; [reflexivity|]. simpl.
        rewrite !length_app, HEm, Hdr. simpl.
        repeat split; try lia; try assumption.
Qed.

End DrivingExtras.
